(** * syft.frameworks.torch.hook : the TorchHook interception layer

    A shallow embedding of [src/syft/frameworks/torch/hook.py].  Python
    classes and modules are attribute tables that [setattr] updates in
    place; the hooking passes are loops over [dir(...)] threaded through an
    exception monad; the installed dispatchers are interpreted by a
    depth-bounded method-call semantics that records every call made to the
    worker and to the numeric library. *)

From Stdlib Require Import ZArith Lia Ascii String.
From stdpp Require Import gmap strings list sorting.

Open Scope string_scope.
Open Scope list_scope.
Open Scope stdpp_scope.

(** ** Exceptions *)

Inductive pyexn := AttributeError | KeyError | TypeError | RecursionError.

#[global] Instance pyexn_eq_dec : EqDecision pyexn.
Proof. solve_decision. Defined.

Inductive outcome (A : Type) :=
| Ok (a : A)
| Raise (e : pyexn).
Arguments Ok {A} a.
Arguments Raise {A} e.

#[global] Instance outcome_ret : MRet outcome := @Ok.

#[global] Instance outcome_bind : MBind outcome := λ A B f x,
  match x with
  | Ok a => f a
  | Raise e => Raise e
  end.

(** [try: body except exn: handler] *)
Definition try_except {A} (body : outcome A) (exn : pyexn) (handler : outcome A)
  : outcome A :=
  match body with
  | Ok a => Ok a
  | Raise e => if decide (e = exn) then handler else Raise e
  end.

(** [for x in l: s = body x s], stopping at the first exception. *)
Fixpoint for_in {A S} (l : list A) (body : A -> S -> outcome S) (s : S)
  : outcome S :=
  match l with
  | [] => Ok s
  | x :: l' => s' ← body x s; for_in l' body s'
  end.

(** ** Strings *)

(** [needle in hay] on Python strings. *)
Fixpoint str_in (needle hay : string) : bool :=
  String.prefix needle hay ||
  match hay with
  | EmptyString => false
  | String _ hay' => str_in needle hay'
  end.

(** The fragment of regular expressions that [re.match("native*", _)] uses:
    literal characters and a starred character, matched at the start of the
    subject. *)
Inductive re_atom := Lit (c : ascii) | Star (c : ascii).

Fixpoint re_match (p : list re_atom) : string -> bool :=
  match p with
  | [] => fun _ => true
  | Lit c :: p' => fun s =>
      match s with
      | String c' s' => Ascii.eqb c c' && re_match p' s'
      | EmptyString => false
      end
  | Star c :: p' =>
      fix star (s : string) : bool :=
        re_match p' s ||
        match s with
        | String c' s' => Ascii.eqb c c' && star s'
        | EmptyString => false
        end
  end.

(** The pattern ["native*"]. *)
Definition re_native_star : list re_atom :=
  [Lit "n"; Lit "a"; Lit "t"; Lit "i"; Lit "v"; Star "e"]%char.

(** ** Python objects seen through introspection *)

Inductive pytype :=
| method_descriptor
| FunctionType
| BuiltinFunctionType
| property
| other_type.

#[global] Instance pytype_eq_dec : EqDecision pytype.
Proof. solve_decision. Defined.

(** What a class or module attribute does when it is called or read. *)
Inductive code :=
| Native (op : string)
| HookedMethod (attr : string)
| HookedSyftMethod (attr : string)
| HookedPointerMethod (attr : string)
| HookedFunc (attr_module attr_name : string)
| NewInit (torch_tensor : bool)
| PropLocation
| PropIdAtLocation
| PropId
| PropIsWrapper.

#[global] Instance code_eq_dec : EqDecision code.
Proof. solve_decision. Defined.

Record member := Member {
  m_type : pytype;
  m_qualname : option string;
  m_module : string;
  m_name : string;
  m_code : code
}.

#[global] Instance member_eq_dec : EqDecision member.
Proof. solve_decision. Defined.

(** A class or a module: the names that [getattr] resolves, and the names
    that [dir] lists although [getattr] raises [AttributeError] on them. *)
Record namespace := Namespace {
  ns_attrs : gmap string member;
  ns_unresolved : gset string
}.

Definition dir (c : namespace) : list string :=
  merge_sort String.le (elements (dom (ns_attrs c) ∪ ns_unresolved c)).

Definition hasattr (c : namespace) (attr : string) : bool :=
  bool_decide (is_Some (ns_attrs c !! attr)).

Definition getattr (c : namespace) (attr : string) : outcome member :=
  match ns_attrs c !! attr with
  | Some m => Ok m
  | None => Raise AttributeError
  end.

Definition setattr (c : namespace) (attr : string) (m : member) : namespace :=
  {| ns_attrs := <[attr := m]> (ns_attrs c);
     ns_unresolved := ns_unresolved c |}.

Definition ismethoddescriptor (lit : member) : bool :=
  bool_decide (m_type lit = method_descriptor).

Definition isinstance_FunctionType (lit : member) : bool :=
  bool_decide (m_type lit = FunctionType).

Definition get___qualname__ (lit : member) : outcome string :=
  match m_qualname lit with
  | Some q => Ok q
  | None => Raise AttributeError
  end.

(** ** The capability registry *)

Section Registry.
(** [syft.torch.exclude], built by [TorchAttributes], and the builtin
    class [object]. *)
Variable exclude : list string.
Variable object_ : namespace.

Definition _which_methods_should_we_auto_overload (tensor_type : namespace)
  : outcome (list string) :=
  for_in (dir tensor_type) (fun attr to_overload =>
    if bool_decide (attr ∈ exclude) then Ok to_overload
    else if negb (hasattr tensor_type attr) then Ok to_overload
    else
      lit ← getattr tensor_type attr;
      let is_base := bool_decide (attr ∈ dir object_) in
      let is_desc := ismethoddescriptor lit in
      let is_func := isinstance_FunctionType lit in
      is_service_func ←
        try_except
          (q ← get___qualname__ lit; Ok (str_in "HookService" q))
          AttributeError
          (Ok false);
      let is_overloaded := re_match re_native_star attr in
      if (is_desc || (is_func && negb is_service_func))
           && negb is_base && negb is_overloaded
      then Ok (to_overload ++ [attr])
      else Ok to_overload) [].

End Registry.

(** ** The dispatchers that hooking installs

    Each [get_hooked_*] returns a closure [overloaded_attr]; as an object it
    is a plain Python function, and [m_code] records which closure it is and
    what it captured.  [@wraps(attr)] copies [__module__], [__name__] and
    [__qualname__] from [attr] when [attr] has them: a method name (a [str])
    has none of the three, a native function has all of them. *)

Definition hook_module : string := "syft.frameworks.torch.hook".

Definition get_hooked_pointer_method (attr : string) : member :=
  Member FunctionType
    (Some "TorchHook.get_hooked_pointer_method.<locals>.overloaded_attr")
    hook_module "overloaded_attr" (HookedPointerMethod attr).

Definition get_hooked_syft_method (attr : string) : member :=
  Member FunctionType
    (Some "TorchHook.get_hooked_syft_method.<locals>.overloaded_attr")
    hook_module "overloaded_attr" (HookedSyftMethod attr).

Definition get_hooked_method (attr : string) : member :=
  Member FunctionType
    (Some "TorchHook.get_hooked_method.<locals>.overloaded_attr")
    hook_module "overloaded_attr" (HookedMethod attr).

Definition get_hooked_func (attr : member) : member :=
  Member FunctionType
    (Some (default "TorchHook.get_hooked_func.<locals>.overloaded_attr"
                   (m_qualname attr)))
    (m_module attr) (m_name attr)
    (HookedFunc (m_module attr) (m_name attr)).

Definition new___init__ (torch_tensor : bool) : member :=
  Member FunctionType
    (Some "TorchHook._add_registration_to___init__.<locals>.new___init__")
    hook_module "new___init__" (NewInit torch_tensor).

Definition property_ (getter : code) : member :=
  Member property None "" "" getter.

(** ** The hooking passes

    [self.to_auto_overload[tensor_type]] is the argument [to_auto_overload];
    the classes a pass mutates are its last argument and its result. *)

Definition _hook_native_methods (to_auto_overload : list string)
    (tensor_type : namespace) : outcome namespace :=
  for_in to_auto_overload (fun attr tensor_type =>
    if negb (bool_decide (("native_" +:+ attr) ∈ dir tensor_type)) then
      native_method ← getattr tensor_type attr;
      let tensor_type := setattr tensor_type ("native_" +:+ attr) native_method in
      let new_method := get_hooked_method attr in
      Ok (setattr tensor_type attr new_method)
    else Ok tensor_type) tensor_type.

Definition _hook_syft_tensor_methods (to_auto_overload : list string)
    (syft_type : namespace) : outcome namespace :=
  for_in to_auto_overload (fun attr syft_type =>
    if negb (bool_decide (attr ∈ dir syft_type)) then
      let new_method := get_hooked_syft_method attr in
      Ok (setattr syft_type attr new_method)
    else Ok syft_type) syft_type.

Definition _hook_pointer_tensor_methods (to_auto_overload : list string)
    (PointerTensor : namespace) : outcome namespace :=
  for_in to_auto_overload (fun attr PointerTensor =>
    if negb (bool_decide (attr ∈ dir PointerTensor)) then
      let new_method := get_hooked_pointer_method attr in
      Ok (setattr PointerTensor attr new_method)
    else Ok PointerTensor) PointerTensor.

(** One iteration of the inner loop of [_hook_torch_module]. *)
Definition _hook_torch_module_step (exclude : list string) (func : string)
    (torch_module : namespace) : outcome namespace :=
  if bool_decide (func ∈ exclude) then Ok torch_module
  else if str_in "native_" func
          || bool_decide (("native_" +:+ func) ∈ dir torch_module)
  then Ok torch_module
  else
    native_func ← getattr torch_module func;
    if bool_decide (m_type native_func ∈ [FunctionType; BuiltinFunctionType])
    then
      let new_func := get_hooked_func native_func in
      let torch_module := setattr torch_module ("native_" +:+ func) native_func in
      Ok (setattr torch_module func new_func)
    else Ok torch_module.

(** [torch_modules] has the single entry ["torch.nn.functional"]; [dir] of
    the module is taken once, before the loop starts. *)
Definition _hook_torch_module (exclude : list string)
    (torch_nn_functional : namespace) : outcome namespace :=
  for_in (dir torch_nn_functional) (_hook_torch_module_step exclude)
    torch_nn_functional.

Definition _add_registration_to___init__ (tensor_type : namespace)
    (torch_tensor : bool) : outcome namespace :=
  tensor_type ←
    (if negb (bool_decide ("native___init__" ∈ dir tensor_type)) then
       init ← getattr tensor_type "__init__";
       Ok (setattr tensor_type "native___init__" init)
     else Ok tensor_type);
  Ok (setattr tensor_type "__init__" (new___init__ torch_tensor)).

Definition _hook_properties (tensor_type : namespace) : namespace :=
  let tensor_type := setattr tensor_type "location" (property_ PropLocation) in
  let tensor_type :=
    setattr tensor_type "id_at_location" (property_ PropIdAtLocation) in
  let tensor_type := setattr tensor_type "id" (property_ PropId) in
  setattr tensor_type "is_wrapper" (property_ PropIsWrapper).

Definition _add_methods_from__torch_tensor_exclude : list string :=
  [ "__class__"; "__delattr__"; "__dir__"; "__doc__"; "__dict__";
    "__format__"; "__getattribute__"; "__hash__"; "__init__";
    "__init_subclass__"; "__weakref__"; "__ne__"; "__new__"; "__reduce__";
    "__reduce_ex__"; "__setattr__"; "__sizeof__"; "__subclasshook__";
    "_get_type"; "__eq__"; "__gt__"; "__ge__"; "__lt__"; "__le__" ].

Definition _add_methods_from__torch_tensor (TorchTensor : namespace)
    (tensor_type syft_type : namespace) : outcome namespace :=
  let exclude := _add_methods_from__torch_tensor_exclude in
  for_in (dir syft_type) (fun attr tensor_type =>
    if negb (bool_decide (attr ∈ exclude)) then
      tensor_type ←
        (if hasattr tensor_type attr then
           native ← getattr tensor_type attr;
           Ok (setattr tensor_type ("native_" +:+ attr) native)
         else Ok tensor_type);
      method ← getattr TorchTensor attr;
      Ok (setattr tensor_type attr method)
    else Ok tensor_type) tensor_type.

(** ** The process-wide state that hooking mutates *)

Record worker := Worker {
  worker_id : string;
  worker_hook : option nat;
  is_client_worker : bool
}.

#[global] Instance worker_eq_dec : EqDecision worker.
Proof. solve_decision. Defined.

(** [workers.VirtualWorker(hook=..., is_client_worker=..., id=...)] *)
Definition VirtualWorker (hook : nat) (is_client_worker : bool) (id : string)
  : worker :=
  Worker id (Some hook) is_client_worker.

Definition set_worker_hook (w : worker) (hook : nat) : worker :=
  Worker (worker_id w) (Some hook) (is_client_worker w).

(** The modules [torch] and [syft] and the [logging] output.
    [torch_torch_hooked] is [hasattr(torch, "torch_hooked")]; [syft_torch]
    is the [TorchAttributes] object, seen through its [exclude] list. *)
Record world := World {
  torch_torch_hooked : bool;
  torch_Tensor : namespace;
  torch_nn_functional : namespace;
  syft_TorchTensor : namespace;
  syft_PointerTensor : namespace;
  syft_LoggingTensor : namespace;
  syft_torch : option (list string);
  syft_local_worker : option worker;
  logging_warning : list string
}.

Definition set_torch_torch_hooked (b : bool) (w : world) : world :=
  World b (torch_Tensor w) (torch_nn_functional w) (syft_TorchTensor w)
    (syft_PointerTensor w) (syft_LoggingTensor w) (syft_torch w)
    (syft_local_worker w) (logging_warning w).

Definition set_torch_Tensor (c : namespace) (w : world) : world :=
  World (torch_torch_hooked w) c (torch_nn_functional w) (syft_TorchTensor w)
    (syft_PointerTensor w) (syft_LoggingTensor w) (syft_torch w)
    (syft_local_worker w) (logging_warning w).

Definition set_torch_nn_functional (c : namespace) (w : world) : world :=
  World (torch_torch_hooked w) (torch_Tensor w) c (syft_TorchTensor w)
    (syft_PointerTensor w) (syft_LoggingTensor w) (syft_torch w)
    (syft_local_worker w) (logging_warning w).

Definition set_syft_PointerTensor (c : namespace) (w : world) : world :=
  World (torch_torch_hooked w) (torch_Tensor w) (torch_nn_functional w)
    (syft_TorchTensor w) c (syft_LoggingTensor w) (syft_torch w)
    (syft_local_worker w) (logging_warning w).

Definition set_syft_LoggingTensor (c : namespace) (w : world) : world :=
  World (torch_torch_hooked w) (torch_Tensor w) (torch_nn_functional w)
    (syft_TorchTensor w) (syft_PointerTensor w) c (syft_torch w)
    (syft_local_worker w) (logging_warning w).

Definition set_syft_torch (a : option (list string)) (w : world) : world :=
  World (torch_torch_hooked w) (torch_Tensor w) (torch_nn_functional w)
    (syft_TorchTensor w) (syft_PointerTensor w) (syft_LoggingTensor w) a
    (syft_local_worker w) (logging_warning w).

Definition set_syft_local_worker (l : option worker) (w : world) : world :=
  World (torch_torch_hooked w) (torch_Tensor w) (torch_nn_functional w)
    (syft_TorchTensor w) (syft_PointerTensor w) (syft_LoggingTensor w)
    (syft_torch w) l (logging_warning w).

Definition add_logging_warning (msg : string) (w : world) : world :=
  World (torch_torch_hooked w) (torch_Tensor w) (torch_nn_functional w)
    (syft_TorchTensor w) (syft_PointerTensor w) (syft_LoggingTensor w)
    (syft_torch w) (syft_local_worker w) (logging_warning w ++ [msg]).

(** The dispatch tables: everything hooking may install a method on. *)
Definition dispatch_tables (w : world)
  : namespace * namespace * namespace * namespace :=
  (torch_Tensor w, torch_nn_functional w,
   syft_PointerTensor w, syft_LoggingTensor w).

(** Statements that read and write the world and may raise.  The world
    left behind by an exception that nothing catches is not modelled. *)
Definition M (A : Type) : Type := world → outcome (A * world).

#[global] Instance M_ret : MRet M := λ A a w, Ok (a, w).

#[global] Instance M_bind : MBind M := λ A B f x w,
  match x w with
  | Ok (a, w') => f a w'
  | Raise e => Raise e
  end.

Definition read {A} (field : world → A) : M A := λ w, Ok (field w, w).

Definition write (update : world → world) : M unit := λ w, Ok (tt, update w).

Definition lift {A} (o : outcome A) : M A := λ w,
  match o with
  | Ok a => Ok (a, w)
  | Raise e => Raise e
  end.

(** Reading a module attribute that may not have been assigned yet. *)
Definition read_attr {A} (field : world → option A) : M A := λ w,
  match field w with
  | Some a => Ok (a, w)
  | None => Raise AttributeError
  end.

(** ** The hook object *)

Record TorchHook := MkTorchHook {
  self_local_worker : option worker;
  self_to_auto_overload : option (gmap string (list string));
  self_args_hook_for_overloaded_attr : option (gmap string (list string))
}.

Definition set_local_worker (l : option worker) (self : TorchHook) : TorchHook :=
  MkTorchHook l (self_to_auto_overload self) (self_args_hook_for_overloaded_attr self).

(** [self.to_auto_overload[tensor_type]] *)
Definition get_to_auto_overload (self : TorchHook) (tensor_type : string)
  : outcome (list string) :=
  match self_to_auto_overload self with
  | Some d =>
      match d !! tensor_type with
      | Some l => Ok l
      | None => Raise KeyError
      end
  | None => Raise AttributeError
  end.

(** [self.to_auto_overload[tensor_type] = l] *)
Definition set_to_auto_overload (self : TorchHook) (tensor_type : string)
    (l : list string) : outcome TorchHook :=
  match self_to_auto_overload self with
  | Some d =>
      Ok (MkTorchHook (self_local_worker self) (Some (<[tensor_type := l]> d))
            (self_args_hook_for_overloaded_attr self))
  | None => Raise AttributeError
  end.

Section Hooking.
(** The exclusion list that [TorchAttributes(torch, self)] builds, and the
    builtin class [object]. *)
Variable TorchAttributes_exclude : list string.
Variable object_ : namespace.

(** Only ever called with [torch.Tensor] and [TorchTensor]. *)
Definition _hook_native_tensor (self : TorchHook) : M TorchHook :=
  tensor_type ← read torch_Tensor;
  tensor_type ← lift (_add_registration_to___init__ tensor_type true);
  let tensor_type := _hook_properties tensor_type in
  exclude ← read_attr syft_torch;
  l ← lift (_which_methods_should_we_auto_overload exclude object_ tensor_type);
  self ← lift (set_to_auto_overload self "torch.Tensor" l);
  TorchTensor ← read syft_TorchTensor;
  tensor_type ←
    lift (_add_methods_from__torch_tensor TorchTensor tensor_type TorchTensor);
  l ← lift (get_to_auto_overload self "torch.Tensor");
  tensor_type ← lift (_hook_native_methods l tensor_type);
  _ ← write (set_torch_Tensor tensor_type);
  mret self.

(** [TorchHook.__init__(self, torch, local_worker, is_client, verbose)];
    [self] is the address of the object under construction. *)
Definition __init__ (self : nat) (local_worker : option worker)
    (is_client verbose : bool) : M TorchHook :=
  let hook := MkTorchHook local_worker None None in
  torch_hooked ← read torch_torch_hooked;
  if (torch_hooked : bool) then
    _ ← write (add_logging_warning
                 "Torch was already hooked... skipping hooking process");
    lw ← read_attr syft_local_worker;
    mret (set_local_worker (Some lw) hook)
  else
    _ ← write (set_torch_torch_hooked true);
    _ ← write (set_syft_torch (Some TorchAttributes_exclude));
    let hook :=
      match local_worker with
      | None => set_local_worker (Some (VirtualWorker self is_client "me")) hook
      | Some lw => set_local_worker (Some (set_worker_hook lw self)) hook
      end in
    let hook := MkTorchHook (self_local_worker hook) (Some ∅) (Some ∅) in
    hook ← _hook_native_tensor hook;
    l ← lift (get_to_auto_overload hook "torch.Tensor");
    PointerTensor ← read syft_PointerTensor;
    PointerTensor ← lift (_hook_pointer_tensor_methods l PointerTensor);
    _ ← write (set_syft_PointerTensor PointerTensor);
    l ← lift (get_to_auto_overload hook "torch.Tensor");
    LoggingTensor ← read syft_LoggingTensor;
    LoggingTensor ← lift (_hook_syft_tensor_methods l LoggingTensor);
    _ ← write (set_syft_LoggingTensor LoggingTensor);
    exclude ← read_attr syft_torch;
    functional ← read torch_nn_functional;
    functional ← lift (_hook_torch_module exclude functional);
    _ ← write (set_torch_nn_functional functional);
    _ ← write (set_syft_local_worker (self_local_worker hook));
    mret hook.

End Hooking.

(** ** Values and calls *)

#[local] Unset Elimination Schemes.
Inductive value :=
| VNone
| VInt (n : Z)
| VStr (s : string)
| VTuple (vs : list value)
| VNative (data : Z)
| VWrapper (child : value)
| VLogging (child : value)
| VPointer (owner location : worker) (id_at_location : Z).
#[local] Set Elimination Schemes.

(** Induction on values that also reaches the components of a tuple. *)
Fixpoint value_ind (P : value → Prop)
    (HNone : P VNone) (HInt : ∀ n, P (VInt n)) (HStr : ∀ s, P (VStr s))
    (HTuple : ∀ vs, Forall P vs → P (VTuple vs))
    (HNative : ∀ d, P (VNative d))
    (HWrapper : ∀ c, P c → P (VWrapper c))
    (HLogging : ∀ c, P c → P (VLogging c))
    (HPointer : ∀ o l i, P (VPointer o l i))
    (v : value) {struct v} : P v :=
  let rec := value_ind P HNone HInt HStr HTuple HNative HWrapper HLogging HPointer in
  match v with
  | VNone => HNone
  | VInt n => HInt n
  | VStr s => HStr s
  | VTuple vs =>
      HTuple vs
        ((fix all (l : list value) : Forall P l :=
            match l with
            | [] => List.Forall_nil P
            | x :: l' => @List.Forall_cons value P x l' (rec x) (all l')
            end) vs)
  | VNative d => HNative d
  | VWrapper c => HWrapper c (rec c)
  | VLogging c => HLogging c (rec c)
  | VPointer o l i => HPointer o l i
  end.

(** [VNative] is a [torch.Tensor] that has no [child] attribute, [VWrapper]
    a [torch.Tensor] whose [child] is set, [VLogging] a [LoggingTensor] and
    [VPointer] a [PointerTensor]. *)
Inductive pyclass := torch_Tensor_t | LoggingTensor_t | PointerTensor_t | builtin_t.

Definition type_ (v : value) : pyclass :=
  match v with
  | VNative _ | VWrapper _ => torch_Tensor_t
  | VLogging _ => LoggingTensor_t
  | VPointer _ _ _ => PointerTensor_t
  | _ => builtin_t
  end.

(** [hasattr(self, "child")] *)
Definition hasattr_child (self : value) : bool :=
  match self with
  | VWrapper _ | VLogging _ => true
  | _ => false
  end.

Definition kwargs_t : Type := list (string * value).

(** The value that a keyword parameter [name] with the default [default]
    receives from the keyword arguments of a call. *)
Fixpoint keyword_parameter (name : string) (default : value)
    (kwargs : kwargs_t) : value :=
  match kwargs with
  | [] => default
  | (k, v) :: kwargs' =>
      if String.eqb k name then v else keyword_parameter name default kwargs'
  end.

(** What the keyword arguments leave for the catch-all parameter once the
    keyword parameters [names] took theirs. *)
Definition remaining_kwargs (names : list string) (kwargs : kwargs_t)
  : kwargs_t :=
  filter (λ kv, kv.1 ∉ names) kwargs.

(** What a call does besides returning: the commands it sends through a
    worker, the operations of the numeric library it runs locally, the
    commands it hands to [TorchTensor.handle_func_command], and the calls of
    [initialize_tensor] with their keyword arguments [cls], [id],
    [torch_tensor], [init_args] and [init_kwargs]. *)
Inductive event :=
| send_command_call (owner location : worker) (command : value)
| native_call (op : string) (self : value) (args : list value) (kwargs : kwargs_t)
| handle_func_command_call (command : value)
| initialize_tensor_call (cls id : value) (torch_tensor : bool)
    (init_args : list value) (init_kwargs : kwargs_t).

Definition C (A : Type) : Type := (list event * outcome A)%type.

#[global] Instance C_ret : MRet C := λ A a, ([], Ok a).

#[global] Instance C_bind : MBind C := λ A B f x,
  match x with
  | (t, Ok a) => let '(t', r) := f a in (t ++ t', r)
  | (t, Raise e) => (t, Raise e)
  end.

Definition raise {A} (e : pyexn) : C A := ([], Raise e).

Definition perform (e : event) (r : outcome value) : C value := ([e], r).

(** Modelled from the spec: the unwrapping that [hook_method_args] of
    [syft.frameworks.torch.hook_args], a module other than [hook.py], applies
    to the receiver and to every wrapper found in the arguments.  A wrapper
    is replaced by its immediate inner representation, exactly one level; a
    value that wraps nothing stays as it is. *)
Fixpoint unwrap_one_level (v : value) : value :=
  match v with
  | VWrapper child => child
  | VLogging child => child
  | VTuple vs => VTuple (map unwrap_one_level vs)
  | _ => v
  end.

(** Modelled from the spec: [hook_args.hook_method_args], defined outside
    [hook.py].  It returns the receiver and the positional arguments, each
    unwrapped one level. *)
Definition hook_method_args (attr : string) (self : value) (args : list value)
  : value * list value :=
  (unwrap_one_level self, map unwrap_one_level args).

(** Modelled from the spec: the wrapper of type [wrap_type] that
    [hook_args.hook_response], defined outside [hook.py], puts back on a raw
    result. *)
Definition wrap (wrap_type : pyclass) (v : value) : value :=
  match wrap_type with
  | torch_Tensor_t => VWrapper v
  | LoggingTensor_t => VLogging v
  | _ => v
  end.

(** Modelled from the spec: [hook_args.hook_response], defined outside
    [hook.py].  It wraps the raw result back into the outward type of the
    receiver; it handles a single value, a tuple of values and no value, and
    puts the wrapper on the tensors it finds. *)
Fixpoint hook_response (attr : string) (response : value) (wrap_type : pyclass)
  : value :=
  match response with
  | VNone => VNone
  | VTuple vs => VTuple (map (λ r, hook_response attr r wrap_type) vs)
  | VNative _ | VWrapper _ | VLogging _ | VPointer _ _ _ => wrap wrap_type response
  | VInt _ | VStr _ => response
  end.

Section Dispatch.
(** The classes as they are when the call is made. *)
Variable w : world.

(** The collaborators: the worker's [send_command], the numeric library's
    own implementation of each operation, [TorchTensor.handle_func_command]
    and [initialize_tensor], the latter as the closure calls it for the hook
    that made the closure, with [cls], [id], [torch_tensor], [init_args] and
    [init_kwargs]. *)
Variable send_command : worker → worker → value → outcome value.
Variable native : string → value → list value → kwargs_t → outcome value.
Variable handle_func_command : value → outcome value.
Variable initialize_tensor :
  value → value → bool → list value → kwargs_t → outcome value.

Definition class_of (v : value) : outcome namespace :=
  match type_ v with
  | torch_Tensor_t => Ok (torch_Tensor w)
  | LoggingTensor_t => Ok (syft_LoggingTensor w)
  | PointerTensor_t => Ok (syft_PointerTensor w)
  | builtin_t => Raise AttributeError
  end.

Definition pointer_owner (pointer : value) : outcome worker :=
  match pointer with
  | VPointer owner _ _ => Ok owner
  | _ => Raise AttributeError
  end.

Definition pointer_location (pointer : value) : outcome worker :=
  match pointer with
  | VPointer _ location _ => Ok location
  | _ => Raise AttributeError
  end.

(** The closure [overloaded_attr] of [get_hooked_pointer_method]. *)
Definition hooked_pointer_method (attr : string) (self : value)
    (args : list value) (kwargs : kwargs_t) : C value :=
  let pointer := self in
  owner ← ([], pointer_owner pointer);
  location ← ([], pointer_location pointer);
  let command := VTuple [VStr attr; self; VTuple args] in
  response ← perform (send_command_call owner location command)
                     (send_command owner location command);
  mret response.

(** The closure [overloaded_attr] of [get_hooked_func]. *)
Definition hooked_func (attr_module attr_name : string)
    (args : list value) (kwargs : kwargs_t) : C value :=
  let cmd_name := attr_module +:+ "." +:+ attr_name in
  let command := VTuple [VStr cmd_name; VNone; VTuple args] in
  response ← perform (handle_func_command_call command)
                     (handle_func_command command);
  mret response.

Section Closures.
(** [getattr(obj, name)] called with [args] and [kwargs], one frame deeper. *)
Variable getattr_call : value → string → list value → kwargs_t → C value.

(** The closure [overloaded_attr] of [get_hooked_syft_method]. *)
Definition hooked_syft_method (attr : string) (self : value)
    (args : list value) (kwargs : kwargs_t) : C value :=
  let '(new_self, new_args) := hook_method_args attr self args in
  response ← getattr_call new_self attr new_args kwargs;
  let response := hook_response attr response (type_ self) in
  mret response.

(** The closure [overloaded_attr] of [get_hooked_method].  [args] is the
    tuple of positional arguments, so [isinstance(args, tuple)] holds
    and the native command is called on the unpacked [args] alone. *)
Definition hooked_method (attr : string) (self : value)
    (args : list value) (kwargs : kwargs_t) : C value :=
  if negb (hasattr_child self) then
    response ← getattr_call self ("native_" +:+ attr) args [];
    mret response
  else
    let '(new_self, new_args) := hook_method_args attr self args in
    response ← getattr_call new_self attr new_args kwargs;
    let response := hook_response attr response (type_ self) in
    mret response.

(** The closure [new___init__] of [_add_registration_to___init__]: the
    keyword parameters [owner], [id] and [register] take theirs from the
    keyword arguments, the rest goes to [initialize_tensor] as
    [init_kwargs], and the closure returns nothing. *)
Definition new___init___closure (torch_tensor : bool) (cls : value)
    (args : list value) (kwargs : kwargs_t) : C value :=
  let id := keyword_parameter "id" VNone kwargs in
  let kwargs := remaining_kwargs ["owner"; "id"; "register"] kwargs in
  _ ← perform (initialize_tensor_call cls id torch_tensor args kwargs)
              (initialize_tensor cls id torch_tensor args kwargs);
  mret VNone.

(** Calling what the getter of [location] or of [id_at_location] returned.
    The getter reads the attribute of that name on [self.child]: without a
    [child] the read raises [AttributeError]; on a pointer it gives the
    worker or the integer that the pointer holds, neither of which can be
    called; on any other child it is the child's own attribute of that name,
    looked up and called. *)
Definition call_child_attribute (name : string) (self : value)
    (args : list value) (kwargs : kwargs_t) : C value :=
  match self with
  | VWrapper child | VLogging child =>
      match child with
      | VPointer _ _ _ => raise TypeError
      | _ => getattr_call child name args kwargs
      end
  | _ => raise AttributeError
  end.

(** Calling a member that was found on the class of [self].  The getters
    of [id] and [is_wrapper] return an integer and a boolean, and calling
    either raises [TypeError]. *)
Definition call_member (m : member) (self : value) (args : list value)
    (kwargs : kwargs_t) : C value :=
  match m_code m with
  | Native op => perform (native_call op self args kwargs)
                         (native op self args kwargs)
  | HookedMethod attr => hooked_method attr self args kwargs
  | HookedSyftMethod attr => hooked_syft_method attr self args kwargs
  | HookedPointerMethod attr => hooked_pointer_method attr self args kwargs
  | HookedFunc attr_module attr_name =>
      hooked_func attr_module attr_name (self :: args) kwargs
  | NewInit torch_tensor => new___init___closure torch_tensor self args kwargs
  | PropLocation => call_child_attribute "location" self args kwargs
  | PropIdAtLocation => call_child_attribute "id_at_location" self args kwargs
  | PropId | PropIsWrapper => raise TypeError
  end.
End Closures.

(** [getattr(self, attr)] called with [args] and [kwargs], with [depth]
    frames left before
    the interpreter raises [RecursionError]. *)
Fixpoint call_method (depth : nat) (self : value) (attr : string)
    (args : list value) (kwargs : kwargs_t) : C value :=
  match depth with
  | O => raise RecursionError
  | S depth' =>
      cls ← ([], class_of self);
      m ← ([], getattr cls attr);
      call_member (call_method depth') m self args kwargs
  end.

(** [getattr(module, func)] called with [args] and [kwargs], for a
    module-level function. *)
Definition call_function (module : namespace) (func : string)
    (args : list value) (kwargs : kwargs_t) : C value :=
  m ← ([], getattr module func);
  match m_code m with
  | Native op => perform (native_call op VNone args kwargs)
                         (native op VNone args kwargs)
  | HookedFunc attr_module attr_name =>
      hooked_func attr_module attr_name args kwargs
  | _ => raise TypeError
  end.

End Dispatch.

(** ** The [id] and [is_wrapper] properties

    The instance attributes the properties read and write; [None] is an
    attribute that has not been assigned. *)
Record instance := Instance {
  _id : option Z;
  _is_wrapper : option bool
}.

(** Rounding a positive integer to the nearest integer with at most 53
    significant bits, ties to even: the rounding of a double-precision
    product whose exact value is [N] times a power of two. *)
Definition round_53 (N : Z) : Z :=
  (let bits := Z.log2 N + 1 in
   if bits <=? 53 then N
   else
     let s := bits - 53 in
     let q := Z.shiftr N s in
     let r := Z.land N (Z.ones s) in
     let half := Z.shiftl 1 (s - 1) in
     let q' :=
       if r <? half then q
       else if half <? r then q + 1
       else if Z.even q then q else q + 1 in
     Z.shiftl q' s)%Z.

(** [int(10e10 * r)] where [r] is the double [k / 2^53] that
    [random.random()] returned: [10e10] is the double [10^11], the product
    is rounded once, and [int] truncates. *)
Definition int_10e10_times (k : Z) : Z :=
  Z.shiftr (round_53 (100000000000 * k)%Z) 53.

Section Properties.
(** The numerators [k] of the doubles [k / 2^53] that successive calls of
    [random.random()] return. *)
Variable random_random : nat → Z.

(** The getter of [id]: the instance and the position in the random
    stream are threaded through. *)
Definition id_getter (self : instance) (rng : nat) : Z * instance * nat :=
  match _id self with
  | None =>
      let new_id := int_10e10_times (random_random rng) in
      (new_id, Instance (Some new_id) (_is_wrapper self), S rng)
  | Some i => (i, self, rng)
  end.

Definition id_setter (self : instance) (new_id : Z) : instance :=
  Instance (Some new_id) (_is_wrapper self).

Definition is_wrapper_getter (self : instance) : bool * instance :=
  match _is_wrapper self with
  | None => (false, Instance (_id self) (Some false))
  | Some b => (b, self)
  end.

Definition is_wrapper_setter (self : instance) (it_is_a_wrapper : bool)
  : instance :=
  Instance (_id self) (Some it_is_a_wrapper).

(** Reading [id] [n] times in a row; the values read, oldest first. *)
Fixpoint read_id_times (n : nat) (self : instance) (rng : nat)
  : list Z * instance * nat :=
  match n with
  | O => ([], self, rng)
  | S n' =>
      let '(i, self', rng') := id_getter self rng in
      let '(l, self'', rng'') := read_id_times n' self' rng' in
      (i :: l, self'', rng'')
  end.
End Properties.

(** ** What the registry selects, as a predicate

    [is_service_func] as the [try]/[except] of the source leaves it: an
    object without [__qualname__] is not a service function. *)
Definition is_service_func (lit : member) : bool :=
  match m_qualname lit with
  | Some q => str_in "HookService" q
  | None => false
  end.

Definition auto_overloaded (exclude : list string) (object_ tensor_type : namespace)
    (attr : string) : bool :=
  negb (bool_decide (attr ∈ exclude)) &&
  match ns_attrs tensor_type !! attr with
  | None => false
  | Some lit =>
      (ismethoddescriptor lit
       || (isinstance_FunctionType lit && negb (is_service_func lit)))
      && negb (bool_decide (attr ∈ dir object_))
      && negb (re_match re_native_star attr)
  end.

(** A member is a dispatcher when it is one of the closures that the
    [get_hooked_*] functions build. *)
Definition is_dispatcher (m : member) : bool :=
  match m_code m with
  | HookedMethod _ | HookedSyftMethod _ | HookedPointerMethod _
  | HookedFunc _ _ => true
  | _ => false
  end.

Definition no_dispatcher (c : namespace) : Prop :=
  ∀ attr m, ns_attrs c !! attr = Some m → is_dispatcher m = false.

(** ** A small instance, used to run the definitions

    A tensor class with the operation [add], a service function, a member
    whose name begins with [nativ], a descriptor without [__qualname__] and a
    data attribute; [object] contributes [__repr__]. *)

Definition demo_descriptor (name : string) : member :=
  Member method_descriptor (Some ("_TensorBase." +:+ name)) "torch" name
    (Native name).

Definition demo_function (qualname name : string) : member :=
  Member FunctionType (Some qualname) "torch.tensor" name (Native name).

Definition demo_object : namespace :=
  Namespace
    (list_to_map
       [("__repr__", Member method_descriptor (Some "object.__repr__")
                       "builtins" "__repr__" (Native "__repr__"));
        ("__init__", Member method_descriptor (Some "object.__init__")
                       "builtins" "__init__" (Native "__init__"))])
    ∅.

Definition demo_Tensor : namespace :=
  Namespace
    (list_to_map
       [("__init__", demo_descriptor "__init__");
        ("__repr__", demo_descriptor "__repr__");
        ("__eq__", demo_descriptor "__eq__");
        ("add", demo_descriptor "add");
        ("sum", demo_descriptor "sum");
        ("forward", demo_function "HookService.forward" "forward");
        ("norm", demo_function "Tensor.norm" "norm");
        ("nativity", demo_descriptor "nativity");
        ("unnamed", Member method_descriptor None "" "" (Native "unnamed"));
        ("shape", Member other_type None "" "" (Native "shape"))])
    {["__abstractmethods__"]}.

Definition demo_exclude : list string := ["__eq__"; "__getattribute__"].

(** The worker that a first hook keeps and publishes. *)
Definition first_local_worker (self : nat) (local_worker : option worker)
    (is_client : bool) : worker :=
  match local_worker with
  | None => VirtualWorker self is_client "me"
  | Some lw => set_worker_hook lw self
  end.

Definition demo_TorchTensor : namespace :=
  Namespace
    (list_to_map
       [("__init__", demo_function "TorchTensor.__init__" "__init__");
        ("__repr__", demo_function "TorchTensor.__repr__" "__repr__");
        ("send", demo_function "TorchTensor.send" "send");
        ("sum", demo_function "TorchTensor.sum" "sum")])
    ∅.

Definition demo_PointerTensor : namespace :=
  Namespace
    (list_to_map
       [("__init__", demo_function "PointerTensor.__init__" "__init__");
        ("get", demo_function "PointerTensor.get" "get");
        ("norm", demo_function "PointerTensor.norm" "norm")])
    ∅.

Definition demo_LoggingTensor : namespace :=
  Namespace
    (list_to_map
       [("__init__", demo_function "LoggingTensor.__init__" "__init__");
        ("add", demo_function "LoggingTensor.add" "add")])
    ∅.

Definition demo_functional : namespace :=
  Namespace
    (list_to_map
       [("relu", Member FunctionType (Some "relu") "torch.nn.functional" "relu"
                   (Native "relu"));
        ("conv2d", Member BuiltinFunctionType (Some "conv2d") "torch" "conv2d"
                     (Native "conv2d"));
        ("__eq__", Member FunctionType (Some "__eq__") "torch.nn.functional"
                     "__eq__" (Native "__eq__"));
        ("for_native_use", Member FunctionType (Some "for_native_use")
                             "torch.nn.functional" "for_native_use"
                             (Native "for_native_use"));
        ("Tensor", Member other_type (Some "Tensor") "torch" "Tensor"
                     (Native "Tensor"))])
    ∅.

Definition demo_world : world :=
  World false demo_Tensor demo_functional demo_TorchTensor demo_PointerTensor
    demo_LoggingTensor None None [].

Definition demo_alice : worker := Worker "alice" None false.
Definition demo_bob : worker := Worker "bob" None false.

(** The first hook on [demo_world], made with the worker [demo_alice]. *)
Definition demo_first_hook : outcome (TorchHook * world) :=
  __init__ demo_exclude demo_object 1 (Some demo_alice) true true demo_world.

Definition demo_hooked_world : world :=
  match demo_first_hook with
  | Ok (_, w) => w
  | Raise _ => demo_world
  end.

Definition demo_hook : TorchHook :=
  match demo_first_hook with
  | Ok (hook, _) => hook
  | Raise _ => MkTorchHook None None None
  end.

(** Collaborators for the small instance: a worker that answers every
    command with a pointer to the result it keeps, and a numeric library
    whose [add] computes [self + alpha * other]. *)
Definition demo_send_command (owner location : worker) (command : value)
  : outcome value :=
  Ok (VPointer owner location 8).

Definition demo_alpha (kwargs : kwargs_t) : Z :=
  match kwargs with
  | [("alpha", VInt alpha)] => alpha
  | _ => 1
  end.

Definition demo_native (op : string) (self : value) (args : list value)
    (kwargs : kwargs_t) : outcome value :=
  match self, args with
  | VNative a, [VInt b] =>
      if String.eqb op "add" then Ok (VNative (a + demo_alpha kwargs * b))
      else Raise TypeError
  | _, _ => Raise TypeError
  end.

Definition demo_handle_func_command (command : value) : outcome value :=
  Ok command.

Definition demo_initialize_tensor (cls id : value) (torch_tensor : bool)
    (init_args : list value) (init_kwargs : kwargs_t) : outcome value :=
  Ok (VInt 42).

Definition demo_call_method : nat → value → string → list value → kwargs_t → C value :=
  call_method demo_hooked_world demo_send_command demo_native
    demo_handle_func_command demo_initialize_tensor.

(** The receiver is a wrapper around [child]: a [torch.Tensor] with a
    [child] on which [attr] is the dispatcher of [get_hooked_method], or a
    [LoggingTensor] on which it is that of [get_hooked_syft_method]. *)
Definition wraps (w : world) (self child : value) (attr : string) : Prop :=
  (self = VWrapper child ∧
   ns_attrs (torch_Tensor w) !! attr = Some (get_hooked_method attr)) ∨
  (self = VLogging child ∧
   ns_attrs (syft_LoggingTensor w) !! attr = Some (get_hooked_syft_method attr)).

(** Every dispatcher of the module sits on a name that is not excluded and
    has no [native_] in it, next to the saved original, and was built by
    [get_hooked_func] from a function. *)
Definition hooked_funcs_ok (exclude : list string) (torch_module : namespace)
  : Prop :=
  ∀ func m, ns_attrs torch_module !! func = Some m → is_dispatcher m = true →
    (func ∉ exclude) ∧ str_in "native_" func = false ∧
    ("native_" +:+ func) ∈ dir torch_module ∧
    ∃ native_func,
      m = get_hooked_func native_func ∧
      m_type native_func ∈ [FunctionType; BuiltinFunctionType].

(** One iteration of the loop of [_add_methods_from__torch_tensor]. *)
Definition _add_methods_from__torch_tensor_step (TorchTensor : namespace)
    (attr : string) (tensor_type : namespace) : outcome namespace :=
  if negb (bool_decide (attr ∈ _add_methods_from__torch_tensor_exclude)) then
    tensor_type ←
      (if hasattr tensor_type attr then
         native ← getattr tensor_type attr;
         Ok (setattr tensor_type ("native_" +:+ attr) native)
       else Ok tensor_type);
    method ← getattr TorchTensor attr;
    Ok (setattr tensor_type attr method)
  else Ok tensor_type.

(** An iteration of [_hook_torch_module] on [func] hooks it exactly when
    the name is not excluded, has no [native_] in it, its [native_] twin is
    not listed by [dir], and it resolves to a function or a builtin. *)
Definition hookable (exclude : list string) (func : string) (M : namespace)
    (m : member) : Prop :=
  (func ∉ exclude) ∧ str_in "native_" func = false ∧
  (("native_" +:+ func) ∉ dir M) ∧
  ns_attrs M !! func = Some m ∧
  m_type m ∈ [FunctionType; BuiltinFunctionType].

(** * Verified properties *)

(** Closed decidable statements are settled by evaluation. *)
Ltac by_compute :=
  match goal with
  | |- ?P => apply (bool_decide_eq_true_1 P); vm_compute; reflexivity
  end.

(** ** Loops and lookups *)

Lemma elem_of_dir (c : namespace) (attr : string) :
  attr ∈ dir c ↔ is_Some (ns_attrs c !! attr) ∨ attr ∈ ns_unresolved c.
Proof.
  unfold dir. rewrite merge_sort_Permutation, elem_of_elements, elem_of_union.
  by rewrite elem_of_dom.
Qed.

Lemma dir_setattr (c : namespace) (a b : string) (m : member) :
  b ∈ dir (setattr c a m) ↔ b = a ∨ b ∈ dir c.
Proof.
  rewrite !elem_of_dir. unfold setattr; simpl.
  rewrite lookup_insert. case_decide; subst.
  - split; [auto | intros _; left; eauto].
  - split; [tauto | intros [?|?]; [congruence | done]].
Qed.

(** A loop whose body only ever appends the current element when a test
    passes computes a filter. *)
Lemma for_in_filter {A} (P : A → bool) (body : A → list A → outcome (list A))
    (l acc : list A) :
  (∀ x acc, body x acc = Ok (if P x then acc ++ [x] else acc)) →
  for_in l body acc = Ok (acc ++ filter (λ x, P x = true) l).
Proof.
  intros Hbody. revert acc. induction l as [|x l IH]; intros acc; simpl.
  - by rewrite app_nil_r.
  - rewrite Hbody. simpl. rewrite IH. destruct (P x) eqn:HP.
    + rewrite filter_cons_True by done. by rewrite <- app_assoc.
    + rewrite filter_cons_False by (by rewrite HP). done.
Qed.

(** ** The regular expression *)

Lemma prefix_cons (a b : ascii) (s1 s2 : string) :
  String.prefix (String a s1) (String b s2)
  = Ascii.eqb a b && String.prefix s1 s2.
Proof.
  change (String.prefix (String a s1) (String b s2))
    with (if ascii_dec a b then String.prefix s1 s2 else false).
  destruct (ascii_dec a b) as [->|Hne].
  - by rewrite Ascii.eqb_refl.
  - apply Ascii.eqb_neq in Hne. by rewrite Hne.
Qed.

Lemma re_match_Lit (c c' : ascii) (p : list re_atom) (s : string) :
  re_match (Lit c :: p) (String c' s) = Ascii.eqb c c' && re_match p s.
Proof. done. Qed.

Lemma re_match_Star_last (c : ascii) (s : string) :
  re_match [Star c] s = true.
Proof. by destruct s. Qed.

Lemma re_match_native_star (s : string) :
  re_match re_native_star s = String.prefix "nativ" s.
Proof.
  unfold re_native_star.
  do 5 (destruct s as [|? s]; [done|];
        rewrite re_match_Lit, prefix_cons; f_equal).
  rewrite re_match_Star_last. by destruct s.
Qed.

Lemma prefix_native__nativ (s : string) :
  String.prefix "native_" s = true → String.prefix "nativ" s = true.
Proof.
  do 5 (destruct s as [|? s]; [done|];
        rewrite !prefix_cons; intros [-> H]%andb_true_iff; simpl;
        revert H).
  intros _. by destruct s.
Qed.

(** ** The capability registry *)

Section RegistryFacts.
Variable exclude : list string.
Variable object_ : namespace.

Lemma which_methods_computes (tensor_type : namespace) :
  _which_methods_should_we_auto_overload exclude object_ tensor_type
  = Ok (filter (λ attr, auto_overloaded exclude object_ tensor_type attr = true)
               (dir tensor_type)).
Proof.
  unfold _which_methods_should_we_auto_overload.
  rewrite (for_in_filter (auto_overloaded exclude object_ tensor_type)); [done|].
  intros attr acc. unfold auto_overloaded, hasattr, getattr.
  generalize (re_match re_native_star attr); intros is_overloaded.
  destruct (bool_decide (attr ∈ exclude)); simpl; [done|].
  destruct (ns_attrs tensor_type !! attr) as [lit|] eqn:Hlit; simpl.
  - unfold is_service_func, get___qualname__.
    destruct (m_qualname lit); simpl;
      match goal with |- (if ?b then _ else _) = _ => by destruct b end.
  - done.
Qed.

Lemma auto_overloaded_not_excluded (tensor_type : namespace) (attr : string) :
  auto_overloaded exclude object_ tensor_type attr = true → attr ∉ exclude.
Proof.
  unfold auto_overloaded. intros [H _]%andb_true_iff.
  by apply negb_true_iff, bool_decide_eq_false in H.
Qed.

Lemma auto_overloaded_not_native (tensor_type : namespace) (attr : string) :
  auto_overloaded exclude object_ tensor_type attr = true →
  String.prefix "native_" attr = false.
Proof.
  unfold auto_overloaded. intros [_ H]%andb_true_iff.
  destruct (ns_attrs tensor_type !! attr); [|done].
  apply andb_true_iff in H as [_ H]. apply negb_true_iff in H.
  rewrite re_match_native_star in H.
  destruct (String.prefix "native_" attr) eqn:Hp; [|done].
  apply prefix_native__nativ in Hp. congruence.
Qed.

Lemma auto_overloaded_resolves (tensor_type : namespace) (attr : string) :
  auto_overloaded exclude object_ tensor_type attr = true →
  is_Some (ns_attrs tensor_type !! attr).
Proof.
  unfold auto_overloaded. intros [_ H]%andb_true_iff.
  destruct (ns_attrs tensor_type !! attr); [eauto|done].
Qed.
End RegistryFacts.

(** ** Passes that add a method only where the name is free *)

Section AddIfAbsent.
Variable mk : string → member.

Lemma add_if_absent_spec (l : list string) (c : namespace) :
  ∃ c',
    for_in l (λ attr c,
      if negb (bool_decide (attr ∈ dir c)) then Ok (setattr c attr (mk attr))
      else Ok c) c = Ok c' ∧
    ns_unresolved c' = ns_unresolved c ∧
    (∀ a, a ∈ dir c → a ∈ dir c') ∧
    (∀ a, a ∈ dir c → ns_attrs c' !! a = ns_attrs c !! a) ∧
    (∀ a m, ns_attrs c' !! a = Some m →
       ns_attrs c !! a = Some m ∨ (a ∈ l ∧ (a ∉ dir c) ∧ m = mk a)).
Proof.
  revert c. induction l as [|x l IH]; intros c; simpl.
  - exists c. repeat split; auto.
  - destruct (bool_decide (x ∈ dir c)) eqn:Hx; simpl.
    + apply bool_decide_eq_true in Hx.
      destruct (IH c) as (c' & Hc' & Hu & Hd & Hf & Hi).
      exists c'. repeat split; auto.
      intros a m Ha. destruct (Hi a m Ha) as [?|(?&?&?)]; [by left|].
      right. repeat split; auto. by apply list_elem_of_further.
    + apply bool_decide_eq_false in Hx.
      destruct (IH (setattr c x (mk x))) as (c' & Hc' & Hu & Hd & Hf & Hi).
      exists c'. split; [done|]. split; [done|]. split; [|split].
      * intros a Ha. apply Hd, dir_setattr. by right.
      * intros a Ha. rewrite Hf by (apply dir_setattr; by right).
        simpl. apply lookup_insert_ne. intros ->. done.
      * intros a m Ha. destruct (Hi a m Ha) as [Hold|(Hl & Hnd & ->)].
        -- simpl in Hold. rewrite lookup_insert in Hold.
           case_decide as Hxa.
           ++ subst a. right. split; [apply list_elem_of_here|].
              split; [done|]. congruence.
           ++ by left.
        -- right. split; [by apply list_elem_of_further|]. split; [|done].
           intros Ha'. apply Hnd, dir_setattr. by right.
Qed.
End AddIfAbsent.

(** ** Names of saved originals *)

Lemma native_name_inj (a b : string) :
  "native_" +:+ a = "native_" +:+ b → a = b.
Proof. apply (inj (String.app "native_")). Qed.

Lemma prefix_native_name (a : string) :
  String.prefix "native_" ("native_" +:+ a) = true.
Proof.
  change ("native_" +:+ a)
    with (String "n" (String "a" (String "t" (String "i"
            (String "v" (String "e" (String "_" a))))))).
  rewrite !prefix_cons, !Ascii.eqb_refl. simpl. by destruct a.
Qed.

Lemma native_name_neq (a : string) : "native_" +:+ a ≠ a.
Proof.
  intros H. apply (f_equal String.length) in H. simpl in H.
  change ("" +:+ a) with a in H. lia.
Qed.

(** ** [_hook_native_methods] *)

Lemma hook_native_methods_skip (l : list string) (T : namespace) :
  (∀ a, a ∈ l → ("native_" +:+ a) ∈ dir T) →
  _hook_native_methods l T = Ok T.
Proof.
  unfold _hook_native_methods. induction l as [|x l IH]; intros H; simpl.
  - done.
  - rewrite bool_decide_eq_true_2 by (apply H, list_elem_of_here). simpl.
    apply IH. intros a Ha. by apply H, list_elem_of_further.
Qed.

Lemma hook_native_methods_dir (l : list string) (T T' : namespace) :
  _hook_native_methods l T = Ok T' →
  ns_unresolved T' = ns_unresolved T ∧
  (∀ a, a ∈ dir T → a ∈ dir T') ∧
  (∀ a, a ∈ l → ("native_" +:+ a) ∈ dir T').
Proof.
  unfold _hook_native_methods. revert T.
  induction l as [|x l IH]; intros T; simpl.
  - intros [= ->]. split; [done|]. split; [done|]. by intros a ?%elem_of_nil.
  - destruct (bool_decide ("native_" +:+ x ∈ dir T)) eqn:Hx; simpl.
    + apply bool_decide_eq_true in Hx. intros H.
      destruct (IH _ H) as (Hu & Hd & Hn).
      split; [done|]. split; [done|].
      intros a [->|Ha]%elem_of_cons; auto.
    + destruct (getattr T x) as [m|e] eqn:Hm; simpl; [|done]. intros H.
      destruct (IH _ H) as (Hu & Hd & Hn).
      split; [done|]. split.
      * intros a Ha. apply Hd. rewrite !dir_setattr. auto.
      * intros a [->|Ha]%elem_of_cons; [|auto].
        apply Hd. rewrite !dir_setattr. auto.
Qed.

Lemma hook_native_methods_succeeds (l : list string) (T : namespace) :
  (∀ a, a ∈ l → is_Some (ns_attrs T !! a)) →
  ∃ T', _hook_native_methods l T = Ok T'.
Proof.
  unfold _hook_native_methods. revert T.
  induction l as [|x l IH]; intros T H; simpl; [eauto|].
  destruct (bool_decide ("native_" +:+ x ∈ dir T)); simpl.
  - apply IH. intros a Ha. by apply H, list_elem_of_further.
  - unfold getattr. destruct (H x) as [m Hm]; [apply list_elem_of_here|].
    rewrite Hm. simpl. apply IH. intros a Ha. simpl.
    rewrite !lookup_insert. repeat case_decide; eauto.
    by apply H, list_elem_of_further.
Qed.

(** Every dispatcher sits on a name whose saved original exists and which
    satisfies [P], as long as the pass only visits names satisfying [P]. *)
Lemma hook_native_methods_dispatchers (P : string → Prop) (l : list string)
    (T T' : namespace) :
  (∀ n m, ns_attrs T !! n = Some m → is_dispatcher m = true →
     ("native_" +:+ n) ∈ dir T ∧ P n) →
  (∀ a, a ∈ l → P a) →
  _hook_native_methods l T = Ok T' →
  ∀ n m, ns_attrs T' !! n = Some m → is_dispatcher m = true →
    ("native_" +:+ n) ∈ dir T' ∧ P n.
Proof.
  unfold _hook_native_methods. revert T.
  induction l as [|x l IH]; intros T HI HP; simpl.
  - by intros [= ->].
  - destruct (bool_decide ("native_" +:+ x ∈ dir T)) eqn:Hx; simpl.
    + apply IH; [done|]. intros a Ha. by apply HP, list_elem_of_further.
    + apply bool_decide_eq_false in Hx.
      unfold getattr. destruct (ns_attrs T !! x) as [mx|] eqn:Hmx; simpl; [|done].
      apply IH; [|intros a Ha; by apply HP, list_elem_of_further].
      intros n m. simpl. rewrite !dir_setattr, !lookup_insert.
      case_decide as H1; [subst n|case_decide as H2; [subst n|]].
      * intros _ _. split; [auto|]. apply HP, list_elem_of_here.
      * intros [= <-] Hd. destruct (HI _ _ Hmx Hd) as [? _]. done.
      * intros Hm Hd. destruct (HI _ _ Hm Hd) as [? ?]. auto.
Qed.

(** A name whose saved original already exists keeps both entries. *)
Lemma hook_native_methods_kept (l : list string) (T T' : namespace) (a : string) :
  (∀ x, x ∈ l → String.prefix "native_" x = false) →
  String.prefix "native_" a = false →
  ("native_" +:+ a) ∈ dir T →
  _hook_native_methods l T = Ok T' →
  ns_attrs T' !! a = ns_attrs T !! a ∧
  ns_attrs T' !! ("native_" +:+ a) = ns_attrs T !! ("native_" +:+ a).
Proof.
  unfold _hook_native_methods. intros Hl Ha. revert T.
  induction l as [|x l IH]; intros T Hn; simpl.
  - by intros [= ->].
  - assert (Hl' : ∀ y, y ∈ l → String.prefix "native_" y = false)
      by (intros y Hy; by apply Hl, list_elem_of_further).
    assert (Hxp : String.prefix "native_" x = false)
      by apply Hl, list_elem_of_here.
    destruct (bool_decide ("native_" +:+ x ∈ dir T)) eqn:Hx; simpl.
    + by apply IH.
    + apply bool_decide_eq_false in Hx.
      unfold getattr. destruct (ns_attrs T !! x) as [mx|] eqn:Hmx; simpl; [|done].
      intros H. apply IH in H; [|done|rewrite !dir_setattr; auto].
      destruct H as [-> ->]. simpl.
      assert (x ≠ a) by (intros ->; done).
      assert ("native_" +:+ x ≠ a)
        by (intros <-; by rewrite prefix_native_name in Ha).
      assert (x ≠ "native_" +:+ a)
        by (intros ->; by rewrite prefix_native_name in Hxp).
      assert ("native_" +:+ x ≠ "native_" +:+ a)
        by (intros ?%native_name_inj; done).
      by rewrite !lookup_insert_ne.
Qed.

(** A name of the list whose saved original does not exist yet gets the
    dispatcher, and its previous member is saved under the [native_] name. *)
Lemma hook_native_methods_saved (l : list string) (T T' : namespace) (a : string) :
  (∀ x, x ∈ l → String.prefix "native_" x = false) →
  a ∈ l →
  ("native_" +:+ a) ∉ dir T →
  _hook_native_methods l T = Ok T' →
  ns_attrs T' !! a = Some (get_hooked_method a) ∧
  is_Some (ns_attrs T !! a) ∧
  ns_attrs T' !! ("native_" +:+ a) = ns_attrs T !! a.
Proof.
  intros Hl. revert T.
  induction l as [|x l IH]; intros T Ha Hn; [by apply elem_of_nil in Ha|].
  assert (Hl' : ∀ y, y ∈ l → String.prefix "native_" y = false)
    by (intros y Hy; by apply Hl, list_elem_of_further).
  assert (Hxp : String.prefix "native_" x = false)
    by apply Hl, list_elem_of_here.
  assert (Hap : String.prefix "native_" a = false) by by apply Hl.
  unfold _hook_native_methods; simpl.
  destruct (decide (x = a)) as [->|Hxa].
  - rewrite bool_decide_eq_false_2 by done. simpl.
    unfold getattr. destruct (ns_attrs T !! a) as [ma|] eqn:Hma; simpl; [|done].
    intros H.
    apply (hook_native_methods_kept l _ T' a) in H;
      [|done|done|rewrite !dir_setattr; auto].
    destruct H as [-> ->]. simpl.
    rewrite lookup_insert_eq.
    rewrite lookup_insert_ne by (intros ?; by eapply native_name_neq).
    rewrite lookup_insert_eq. eauto.
  - apply elem_of_cons in Ha as [->|Ha]; [done|].
    destruct (bool_decide ("native_" +:+ x ∈ dir T)) eqn:Hx; simpl.
    + by apply IH.
    + unfold getattr. destruct (ns_attrs T !! x) as [mx|] eqn:Hmx; simpl; [|done].
      intros H. apply IH in H; [|done|done|].
      * destruct H as (-> & H2 & ->). simpl in *.
        assert ("native_" +:+ x ≠ a)
          by (intros <-; by rewrite prefix_native_name in Hap).
        rewrite !lookup_insert_ne in H2 by done.
        by rewrite !lookup_insert_ne.
      * rewrite !dir_setattr. intros [Heq|[?%native_name_inj|?]]; try done.
        subst x. by rewrite prefix_native_name in Hxp.
Qed.

Example demo_which_methods :
  _which_methods_should_we_auto_overload demo_exclude demo_object demo_Tensor
  = Ok ["add"; "norm"; "sum"; "unnamed"].
Proof. vm_compute. reflexivity. Qed.

Lemma pointer_pass_no_new_dispatcher (exclude l : list string) (c c' : namespace) :
  (∀ a, a ∈ exclude → a ∉ l) → no_dispatcher c →
  _hook_pointer_tensor_methods l c = Ok c' ∨
    _hook_syft_tensor_methods l c = Ok c' →
  ∀ a m, a ∈ exclude → ns_attrs c' !! a = Some m → is_dispatcher m = false.
Proof.
  intros Hex Hnd Hpass a m Ha Hm.
  assert (ns_attrs c !! a = Some m ∨ a ∈ l) as [Hold|Hin].
  { destruct Hpass as [Hpass|Hpass].
    - destruct (add_if_absent_spec get_hooked_pointer_method l c)
        as (c1 & Hc1 & _ & _ & _ & Hi).
      unfold _hook_pointer_tensor_methods in Hpass.
      rewrite Hc1 in Hpass. injection Hpass as ->.
      destruct (Hi a m Hm) as [?|(?&_)]; auto.
    - destruct (add_if_absent_spec get_hooked_syft_method l c)
        as (c1 & Hc1 & _ & _ & _ & Hi).
      unfold _hook_syft_tensor_methods in Hpass.
      rewrite Hc1 in Hpass. injection Hpass as ->.
      destruct (Hi a m Hm) as [?|(?&_)]; auto. }
  - by eapply Hnd.
  - by destruct (Hex a Ha).
Qed.

Lemma native_pass_no_new_dispatcher (exclude l : list string) (c c' : namespace) :
  (∀ a, a ∈ exclude → a ∉ l) → no_dispatcher c →
  _hook_native_methods l c = Ok c' →
  ∀ a m, a ∈ exclude → ns_attrs c' !! a = Some m → is_dispatcher m = false.
Proof.
  intros Hex Hnd Hpass a m Ha Hm.
  destruct (is_dispatcher m) eqn:Hd; [|done].
  destruct (hook_native_methods_dispatchers (λ n, n ∈ l) l c c') with a m
    as [_ Hin]; auto.
  - intros n m' Hn Hd'. rewrite (Hnd _ _ Hn) in Hd'. done.
  - by destruct (Hex a Ha).
Qed.

(** C4 (amended).  On every name for which the pattern [native*] and the
    prefix [native_] agree, the registry selects the name exactly when it is
    not in [syft.torch.exclude], it resolves to a method descriptor or to a
    function that is not a [HookService] function, it is not in
    [dir(object)] and it does not begin with [native_].  No selected name is
    in the exclusion list, and so none of the passes that install a method
    dispatcher puts one on an excluded name. *)
Theorem which_methods_selection (exclude : list string)
    (object_ tensor_type : namespace) (attr : string) :
  String.prefix "nativ" attr = String.prefix "native_" attr →
  ∃ to_overload,
    _which_methods_should_we_auto_overload exclude object_ tensor_type
      = Ok to_overload ∧
    (attr ∈ to_overload ↔
       (attr ∉ exclude) ∧
       (∃ lit, ns_attrs tensor_type !! attr = Some lit ∧
          (m_type lit = method_descriptor ∨
           (m_type lit = FunctionType ∧ is_service_func lit = false))) ∧
       (attr ∉ dir object_) ∧
       String.prefix "native_" attr = false) ∧
    (∀ a, a ∈ exclude → a ∉ to_overload) ∧
    (∀ c c', no_dispatcher c →
       _hook_native_methods to_overload c = Ok c' ∨
       _hook_pointer_tensor_methods to_overload c = Ok c' ∨
       _hook_syft_tensor_methods to_overload c = Ok c' →
       ∀ a m, a ∈ exclude → ns_attrs c' !! a = Some m →
         is_dispatcher m = false).
Proof.
  intros Hagree. eexists. split; [apply which_methods_computes|].
  assert (Hex : ∀ a, a ∈ exclude →
            a ∉ filter (λ attr, auto_overloaded exclude object_ tensor_type attr = true)
                  (dir tensor_type)).
  { intros a Ha [Hsel _]%list_elem_of_filter.
    by apply auto_overloaded_not_excluded in Hsel. }
  split; [|split; [done|]].
  - rewrite list_elem_of_filter. unfold auto_overloaded.
    rewrite re_match_native_star, Hagree.
    split.
    + intros [H _]. apply andb_true_iff in H as [H1 H2].
      apply negb_true_iff, bool_decide_eq_false in H1.
      destruct (ns_attrs tensor_type !! attr) as [lit|] eqn:Hlit; [|done].
      apply andb_true_iff in H2 as [H2 H4]. apply andb_true_iff in H2 as [H2 H3].
      apply negb_true_iff in H4. apply negb_true_iff, bool_decide_eq_false in H3.
      split; [done|]. split; [|done].
      exists lit. split; [done|].
      apply orb_true_iff in H2 as [H2|H2].
      * left. by apply bool_decide_eq_true in H2.
      * right. apply andb_true_iff in H2 as [H2 H5].
        apply bool_decide_eq_true in H2. by apply negb_true_iff in H5.
    + intros (H1 & (lit & Hlit & Hk) & H3 & H4). split.
      * rewrite Hlit, H4. rewrite !bool_decide_eq_false_2 by done. simpl.
        rewrite andb_true_r. unfold ismethoddescriptor, isinstance_FunctionType.
        destruct Hk as [->|[-> ->]]; done.
      * apply elem_of_dir. left. rewrite Hlit. eauto.
  - intros c c' Hnd [H|H].
    + by eapply native_pass_no_new_dispatcher.
    + by eapply pointer_pass_no_new_dispatcher.
Qed.

Lemma which_methods_selection_witness :
  String.prefix "nativ" "add" = String.prefix "native_" "add" ∧
  ∃ to_overload,
    _which_methods_should_we_auto_overload demo_exclude demo_object demo_Tensor
      = Ok to_overload ∧
    ("add" ∈ to_overload ↔
       ("add" ∉ demo_exclude) ∧
       (∃ lit, ns_attrs demo_Tensor !! "add" = Some lit ∧
          (m_type lit = method_descriptor ∨
           (m_type lit = FunctionType ∧ is_service_func lit = false))) ∧
       ("add" ∉ dir demo_object) ∧
       String.prefix "native_" "add" = false) ∧
    (∀ a, a ∈ demo_exclude → a ∉ to_overload) ∧
    (∀ c c', no_dispatcher c →
       _hook_native_methods to_overload c = Ok c' ∨
       _hook_pointer_tensor_methods to_overload c = Ok c' ∨
       _hook_syft_tensor_methods to_overload c = Ok c' →
       ∀ a m, a ∈ demo_exclude → ns_attrs c' !! a = Some m →
         is_dispatcher m = false).
Proof.
  split; [reflexivity|].
  apply (which_methods_selection demo_exclude demo_object demo_Tensor "add").
  reflexivity.
Defined.

(** C4 as stated fails: [forward] is a function of the class, is not
    excluded, is not in [dir(object)] and does not begin with [native_], yet
    the registry leaves it out because its [__qualname__] mentions
    [HookService]. *)
Lemma which_methods_skips_service_function :
  ∃ to_overload,
    _which_methods_should_we_auto_overload demo_exclude demo_object demo_Tensor
      = Ok to_overload ∧
    ¬ ("forward" ∈ to_overload ↔
         ("forward" ∉ demo_exclude) ∧
         (∃ lit, ns_attrs demo_Tensor !! "forward" = Some lit ∧
            (m_type lit = method_descriptor ∨ m_type lit = FunctionType)) ∧
         ("forward" ∉ dir demo_object) ∧
         String.prefix "native_" "forward" = false).
Proof.
  eexists. split; [apply demo_which_methods|].
  intros [_ H].
  assert (Hin : "forward" ∈ ["add"; "norm"; "sum"; "unnamed"]).
  { apply H. split; [by_compute|].
    split; [eexists; split; [by vm_compute|right; reflexivity]|].
    split; [by_compute|reflexivity]. }
  revert Hin. by_compute.
Qed.

(** C6 (amended).  The registry never raises, whatever the class holds.  A
    member without [__qualname__] is treated as not being a [HookService]
    function: it is left out when it is neither a method descriptor nor a
    function, and a method descriptor without [__qualname__] is selected as
    soon as its name is not excluded, not in [dir(object)] and does not
    begin with [nativ]. *)
Theorem which_methods_total (exclude : list string)
    (object_ tensor_type : namespace) :
  ∃ to_overload,
    _which_methods_should_we_auto_overload exclude object_ tensor_type
      = Ok to_overload ∧
    ∀ attr lit,
      ns_attrs tensor_type !! attr = Some lit →
      m_qualname lit = None →
      (m_type lit ≠ method_descriptor → m_type lit ≠ FunctionType →
         attr ∉ to_overload) ∧
      (m_type lit = method_descriptor → (attr ∉ exclude) →
         (attr ∉ dir object_) → String.prefix "nativ" attr = false →
         attr ∈ to_overload).
Proof.
  eexists. split; [apply which_methods_computes|].
  intros attr lit Hlit Hq. rewrite list_elem_of_filter.
  unfold auto_overloaded. rewrite Hlit, re_match_native_star.
  unfold ismethoddescriptor, isinstance_FunctionType. split.
  - intros H1 H2 [H _].
    rewrite (bool_decide_eq_false_2 (m_type lit = method_descriptor)) in H by done.
    rewrite (bool_decide_eq_false_2 (m_type lit = FunctionType)) in H by done.
    simpl in H. by rewrite andb_false_r in H.
  - intros -> H1 H2 ->. split.
    + rewrite (bool_decide_eq_false_2 (attr ∈ exclude)) by done.
      rewrite (bool_decide_eq_false_2 (attr ∈ dir object_)) by done. done.
    + apply elem_of_dir. left. rewrite Hlit. eauto.
Qed.

Lemma which_methods_total_witness :
  ∃ to_overload,
    _which_methods_should_we_auto_overload demo_exclude demo_object demo_Tensor
      = Ok to_overload ∧
    ("shape" ∉ to_overload) ∧ "unnamed" ∈ to_overload.
Proof.
  destruct (which_methods_total demo_exclude demo_object demo_Tensor)
    as (l & Hl & H).
  exists l. split; [exact Hl|]. split.
  - apply (H "shape" (Member other_type None "" "" (Native "shape")));
      [by vm_compute|reflexivity|discriminate|discriminate].
  - apply (H "unnamed" (Member method_descriptor None "" "" (Native "unnamed")));
      [by vm_compute|reflexivity|reflexivity|by_compute|by_compute|reflexivity].
Defined.

(** C6 as stated fails: [unnamed] has no [__qualname__], the lookup raises
    [AttributeError] inside the [try], and the member is selected all the
    same because it is a method descriptor. *)
Lemma which_methods_keeps_unnamed_descriptor :
  ∃ lit to_overload,
    ns_attrs demo_Tensor !! "unnamed" = Some lit ∧
    get___qualname__ lit = Raise AttributeError ∧
    _which_methods_should_we_auto_overload demo_exclude demo_object demo_Tensor
      = Ok to_overload ∧
    "unnamed" ∈ to_overload.
Proof.
  eexists _, _. split; [by vm_compute|]. split; [reflexivity|].
  split; [apply demo_which_methods|]. by_compute.
Qed.

(** ** [_hook_pointer_tensor_methods] and [_hook_syft_tensor_methods] *)

(** C9.  Both passes succeed, and every name that [dir] listed on
    [PointerTensor], respectively on [LoggingTensor], before the pass
    resolves after it exactly as it did before; what a pass adds is the
    dispatcher of a name of the list that [dir] did not list. *)
Theorem syft_passes_keep_existing_attributes (to_auto_overload : list string)
    (PointerTensor LoggingTensor : namespace) :
  ∃ PointerTensor' LoggingTensor',
    _hook_pointer_tensor_methods to_auto_overload PointerTensor
      = Ok PointerTensor' ∧
    _hook_syft_tensor_methods to_auto_overload LoggingTensor
      = Ok LoggingTensor' ∧
    (∀ a, a ∈ dir PointerTensor →
       ns_attrs PointerTensor' !! a = ns_attrs PointerTensor !! a) ∧
    (∀ a, a ∈ dir LoggingTensor →
       ns_attrs LoggingTensor' !! a = ns_attrs LoggingTensor !! a) ∧
    (∀ a m, ns_attrs PointerTensor' !! a = Some m →
       ns_attrs PointerTensor !! a = Some m ∨
       (a ∈ to_auto_overload ∧ (a ∉ dir PointerTensor) ∧
        m = get_hooked_pointer_method a)) ∧
    (∀ a m, ns_attrs LoggingTensor' !! a = Some m →
       ns_attrs LoggingTensor !! a = Some m ∨
       (a ∈ to_auto_overload ∧ (a ∉ dir LoggingTensor) ∧
        m = get_hooked_syft_method a)).
Proof.
  destruct (add_if_absent_spec get_hooked_pointer_method to_auto_overload
              PointerTensor) as (P' & HP & _ & _ & HPf & HPi).
  destruct (add_if_absent_spec get_hooked_syft_method to_auto_overload
              LoggingTensor) as (L' & HL & _ & _ & HLf & HLi).
  exists P', L'. repeat split; assumption.
Qed.

Lemma syft_passes_keep_existing_attributes_witness :
  "norm" ∈ dir demo_PointerTensor ∧ "add" ∈ dir demo_LoggingTensor ∧
  ∃ PointerTensor' LoggingTensor',
    _hook_pointer_tensor_methods ["add"; "norm"; "sum"; "unnamed"]
      demo_PointerTensor = Ok PointerTensor' ∧
    _hook_syft_tensor_methods ["add"; "norm"; "sum"; "unnamed"]
      demo_LoggingTensor = Ok LoggingTensor' ∧
    ns_attrs PointerTensor' !! "norm" = ns_attrs demo_PointerTensor !! "norm" ∧
    ns_attrs LoggingTensor' !! "add" = ns_attrs demo_LoggingTensor !! "add".
Proof.
  assert (H1 : "norm" ∈ dir demo_PointerTensor) by by_compute.
  assert (H2 : "add" ∈ dir demo_LoggingTensor) by by_compute.
  split; [exact H1|]. split; [exact H2|].
  destruct (syft_passes_keep_existing_attributes
              ["add"; "norm"; "sum"; "unnamed"]
              demo_PointerTensor demo_LoggingTensor)
    as (P' & L' & HP & HL & HPf & HLf & _).
  exists P', L'. split; [exact HP|]. split; [exact HL|].
  split; [exact (HPf "norm" H1)|exact (HLf "add" H2)].
Defined.

Example demo_hooked_syft_classes :
  dir (syft_PointerTensor demo_hooked_world)
  = ["__init__"; "add"; "get"; "norm"; "sum"; "unnamed"] ∧
  (m_code <$> ns_attrs (syft_PointerTensor demo_hooked_world) !! "norm")
  = Some (Native "norm") ∧
  (m_code <$> ns_attrs (syft_PointerTensor demo_hooked_world) !! "sum")
  = Some (HookedPointerMethod "sum") ∧
  (m_code <$> ns_attrs (syft_LoggingTensor demo_hooked_world) !! "add")
  = Some (Native "add") ∧
  (m_code <$> ns_attrs (syft_LoggingTensor demo_hooked_world) !! "norm")
  = Some (HookedSyftMethod "norm").
Proof. vm_compute. auto 6. Qed.

(** ** [TorchHook.__init__] *)

Section HookingFacts.
Variable TorchAttributes_exclude : list string.
Variable object_ : namespace.

Local Abbreviation init := (__init__ TorchAttributes_exclude object_).

(** On a module that carries the marker, construction only logs and
    adopts [syft.local_worker]. *)
Lemma init_already_hooked (self : nat) (local_worker : option worker)
    (is_client verbose : bool) (w : world) (lw : worker) :
  torch_torch_hooked w = true →
  syft_local_worker w = Some lw →
  init self local_worker is_client verbose w
  = Ok (MkTorchHook (Some lw) None None,
        add_logging_warning
          "Torch was already hooked... skipping hooking process" w).
Proof.
  intros Hh Hlw. unfold __init__, mbind, M_bind, read, write, read_attr; simpl.
  rewrite Hh. simpl. rewrite Hlw. done.
Qed.

(** What a first construction does, pass by pass. *)
Lemma init_first (self : nat) (local_worker : option worker)
    (is_client verbose : bool) (w w' : world) (hook : TorchHook) :
  torch_torch_hooked w = false →
  init self local_worker is_client verbose w = Ok (hook, w') →
  ∃ T1 l T3 T4 P' L' F',
    _add_registration_to___init__ (torch_Tensor w) true = Ok T1 ∧
    _which_methods_should_we_auto_overload TorchAttributes_exclude object_
      (_hook_properties T1) = Ok l ∧
    _add_methods_from__torch_tensor (syft_TorchTensor w) (_hook_properties T1)
      (syft_TorchTensor w) = Ok T3 ∧
    _hook_native_methods l T3 = Ok T4 ∧
    _hook_pointer_tensor_methods l (syft_PointerTensor w) = Ok P' ∧
    _hook_syft_tensor_methods l (syft_LoggingTensor w) = Ok L' ∧
    _hook_torch_module TorchAttributes_exclude (torch_nn_functional w) = Ok F' ∧
    hook = MkTorchHook
             (Some (first_local_worker self local_worker is_client))
             (Some (<["torch.Tensor" := l]> ∅)) (Some ∅) ∧
    w' = World true T4 F' (syft_TorchTensor w) P' L'
           (Some TorchAttributes_exclude)
           (Some (first_local_worker self local_worker is_client))
           (logging_warning w).
Proof.
  intros Hh. unfold __init__, _hook_native_tensor.
  unfold mbind, M_bind, mret, M_ret, read, write, read_attr, lift; simpl.
  rewrite Hh. simpl.
  replace (match local_worker with
           | Some lw =>
               set_local_worker (Some (set_worker_hook lw self))
                 (MkTorchHook local_worker None None)
           | None =>
               set_local_worker (Some (VirtualWorker self is_client "me"))
                 (MkTorchHook local_worker None None)
           end)
    with (MkTorchHook
            (Some (first_local_worker self local_worker is_client))
            None None)
    by (by destruct local_worker).
  simpl.
  destruct (_add_registration_to___init__ (torch_Tensor w) true)
    as [T1|] eqn:HT1; simpl; [|intros [=]].
  destruct (_which_methods_should_we_auto_overload TorchAttributes_exclude
              object_ (_hook_properties T1)) as [l|] eqn:Hl;
    simpl; [|intros [=]].
  destruct (_add_methods_from__torch_tensor (syft_TorchTensor w)
              (_hook_properties T1) (syft_TorchTensor w))
    as [T3|] eqn:HT3; simpl; [|intros [=]].
  unfold get_to_auto_overload; simpl. rewrite lookup_insert_eq. simpl.
  destruct (_hook_native_methods l T3) as [T4|] eqn:HT4; simpl; [|intros [=]].
  rewrite lookup_insert_eq. simpl.
  destruct (_hook_pointer_tensor_methods l (syft_PointerTensor w))
    as [P'|] eqn:HP; simpl; [|intros [=]].
  destruct (_hook_syft_tensor_methods l (syft_LoggingTensor w))
    as [L'|] eqn:HL; simpl; [|intros [=]].
  destruct (_hook_torch_module TorchAttributes_exclude (torch_nn_functional w))
    as [F'|] eqn:HF; simpl; [|intros [=]].
  intros [= <- <-].
  exists T1, l, T3, T4, P', L', F'. done.
Qed.
End HookingFacts.

Lemma for_in_invariant {A S} (I : S → Prop) (l : list A)
    (body : A → S → outcome S) (s s' : S) :
  (∀ x s s', I s → body x s = Ok s' → I s') →
  I s → for_in l body s = Ok s' → I s'.
Proof.
  intros Hstep. revert s. induction l as [|x l IH]; intros s Hs; simpl.
  - by intros [= <-].
  - destruct (body x s) as [s1|] eqn:Hb; simpl; [|done].
    apply IH. by eapply Hstep.
Qed.

(** ** Dispatchers are installed by the hooking passes only *)

Lemma no_dispatcher_setattr (c : namespace) (attr : string) (m : member) :
  no_dispatcher c → is_dispatcher m = false → no_dispatcher (setattr c attr m).
Proof.
  intros Hc Hm a m'. simpl. rewrite lookup_insert.
  case_decide; [by intros [= <-]|apply Hc].
Qed.

Lemma no_dispatcher_getattr (c : namespace) (attr : string) (m : member) :
  no_dispatcher c → getattr c attr = Ok m → is_dispatcher m = false.
Proof.
  unfold getattr. intros Hc. destruct (ns_attrs c !! attr) eqn:H; [|done].
  intros [= <-]. by eapply Hc.
Qed.

Lemma no_dispatcher_add_registration (T T' : namespace) (b : bool) :
  no_dispatcher T → _add_registration_to___init__ T b = Ok T' → no_dispatcher T'.
Proof.
  intros HT. unfold _add_registration_to___init__.
  destruct (bool_decide ("native___init__" ∈ dir T)); simpl.
  - intros [= <-]. by apply no_dispatcher_setattr.
  - destruct (getattr T "__init__") as [m|] eqn:Hm; simpl; [|done].
    intros [= <-]. apply no_dispatcher_setattr; [|done].
    apply no_dispatcher_setattr; [done|]. by eapply no_dispatcher_getattr.
Qed.

Lemma no_dispatcher_hook_properties (T : namespace) :
  no_dispatcher T → no_dispatcher (_hook_properties T).
Proof.
  intros HT. unfold _hook_properties.
  by repeat apply no_dispatcher_setattr.
Qed.

Lemma no_dispatcher_add_methods (TorchTensor T syft_type T' : namespace) :
  no_dispatcher TorchTensor → no_dispatcher T →
  _add_methods_from__torch_tensor TorchTensor T syft_type = Ok T' →
  no_dispatcher T'.
Proof.
  intros HTT HT. unfold _add_methods_from__torch_tensor.
  apply for_in_invariant; [|done].
  intros x s s' Hs.
  destruct (bool_decide (x ∈ _add_methods_from__torch_tensor_exclude)); simpl;
    [by intros [= <-]|].
  destruct (hasattr s x); simpl.
  - destruct (getattr s x) as [m|] eqn:Hm; simpl; [|done].
    destruct (getattr TorchTensor x) as [m'|] eqn:Hm'; simpl; [|done].
    intros [= <-]. apply no_dispatcher_setattr.
    + apply no_dispatcher_setattr; [done|].
      by apply (no_dispatcher_getattr s x).
    + by apply (no_dispatcher_getattr TorchTensor x).
  - destruct (getattr TorchTensor x) as [m'|] eqn:Hm'; simpl; [|done].
    intros [= <-]. apply no_dispatcher_setattr; [done|].
    by apply (no_dispatcher_getattr TorchTensor x).
Qed.

(** ** A first hook completes *)

Lemma for_in_succeeds {A S} (I : S → Prop) (l : list A)
    (body : A → S → outcome S) (s : S) :
  (∀ x s, x ∈ l → I s → ∃ s', body x s = Ok s' ∧ I s') →
  I s → ∃ s', for_in l body s = Ok s' ∧ I s'.
Proof.
  revert s. induction l as [|x l IH]; intros s Hstep Hs; simpl; [eauto|].
  destruct (Hstep x s) as (s1 & -> & Hs1); [apply list_elem_of_here|done|].
  simpl. apply IH; [|done].
  intros y s2 Hy. apply Hstep. by apply list_elem_of_further.
Qed.

Lemma setattr_resolves (c : namespace) (attr a : string) (m : member) :
  is_Some (ns_attrs c !! a) → is_Some (ns_attrs (setattr c attr m) !! a).
Proof.
  intros H. simpl. rewrite lookup_insert. by case_decide.
Qed.

Lemma add_methods_succeeds (TorchTensor T : namespace) :
  ns_unresolved TorchTensor = ∅ →
  ∃ T', _add_methods_from__torch_tensor TorchTensor T TorchTensor = Ok T' ∧
        ∀ a, is_Some (ns_attrs T !! a) → is_Some (ns_attrs T' !! a).
Proof.
  intros Hu. unfold _add_methods_from__torch_tensor.
  apply (for_in_succeeds
           (λ T', ∀ a, is_Some (ns_attrs T !! a) → is_Some (ns_attrs T' !! a)));
    [|done].
  intros x s Hx Hs.
  destruct (bool_decide (x ∈ _add_methods_from__torch_tensor_exclude)); simpl;
    [eauto|].
  apply elem_of_dir in Hx as [[m Hm]|Hx]; [|by rewrite Hu in Hx].
  unfold hasattr, getattr. rewrite Hm.
  destruct (ns_attrs s !! x) as [mx|] eqn:Hmx; simpl.
  - eexists. split; [done|]. intros a Ha.
    do 2 apply setattr_resolves. by apply Hs.
  - eexists. split; [done|]. intros a Ha.
    apply setattr_resolves. by apply Hs.
Qed.

Lemma hook_torch_module_succeeds (exclude : list string) (F : namespace) :
  ns_unresolved F = ∅ → ∃ F', _hook_torch_module exclude F = Ok F'.
Proof.
  intros Hu. unfold _hook_torch_module.
  destruct (for_in_succeeds
              (λ F', ∀ a, is_Some (ns_attrs F !! a) → is_Some (ns_attrs F' !! a))
              (dir F) (_hook_torch_module_step exclude) F) as (F' & HF' & _);
    [|done|eauto].
  intros x s Hx Hs. unfold _hook_torch_module_step.
  destruct (bool_decide (x ∈ exclude)); [eauto|].
  destruct (str_in "native_" x || bool_decide ("native_" +:+ x ∈ dir s));
    [eauto|].
  apply elem_of_dir in Hx as [Hx|Hx]; [|by rewrite Hu in Hx].
  destruct (Hs x Hx) as [m Hm]. unfold getattr. rewrite Hm. simpl.
  destruct (bool_decide (m_type m ∈ [FunctionType; BuiltinFunctionType]));
    [|eauto].
  eexists. split; [done|]. intros a Ha.
  do 2 apply setattr_resolves. by apply Hs.
Qed.

(** With an [__init__] on the tensor class and no unresolvable name on
    [TorchTensor] and on the functional module, the first construction runs
    to its end. *)
Lemma init_first_succeeds (exclude : list string) (object_ : namespace)
    (self : nat) (local_worker : option worker) (is_client verbose : bool)
    (w : world) :
  torch_torch_hooked w = false →
  is_Some (ns_attrs (torch_Tensor w) !! "__init__") →
  ns_unresolved (syft_TorchTensor w) = ∅ →
  ns_unresolved (torch_nn_functional w) = ∅ →
  ∃ hook w',
    __init__ exclude object_ self local_worker is_client verbose w
    = Ok (hook, w').
Proof.
  intros Hh [mi Hinit] HuT HuF.
  assert (∃ T1, _add_registration_to___init__ (torch_Tensor w) true = Ok T1)
    as [T1 HT1].
  { unfold _add_registration_to___init__, getattr. rewrite Hinit.
    destruct (bool_decide ("native___init__" ∈ dir (torch_Tensor w))); simpl;
      eauto. }
  pose proof (which_methods_computes exclude object_ (_hook_properties T1))
    as Hl.
  set (l := filter (λ attr, auto_overloaded exclude object_ (_hook_properties T1)
                              attr = true) (dir (_hook_properties T1))) in Hl.
  destruct (add_methods_succeeds (syft_TorchTensor w) (_hook_properties T1) HuT)
    as (T3 & HT3 & Hmono).
  destruct (hook_native_methods_succeeds l T3) as [T4 HT4].
  { intros a [Ha _]%list_elem_of_filter.
    by eapply Hmono, auto_overloaded_resolves. }
  destruct (add_if_absent_spec get_hooked_pointer_method l (syft_PointerTensor w))
    as (P' & HP & _).
  destruct (add_if_absent_spec get_hooked_syft_method l (syft_LoggingTensor w))
    as (L' & HL & _).
  destruct (hook_torch_module_succeeds exclude (torch_nn_functional w) HuF)
    as [F' HF].
  unfold __init__, _hook_native_tensor.
  unfold mbind, M_bind, mret, M_ret, read, write, read_attr, lift; simpl.
  rewrite Hh. simpl.
  replace (match local_worker with
           | Some lw =>
               set_local_worker (Some (set_worker_hook lw self))
                 (MkTorchHook local_worker None None)
           | None =>
               set_local_worker (Some (VirtualWorker self is_client "me"))
                 (MkTorchHook local_worker None None)
           end)
    with (MkTorchHook
            (Some (first_local_worker self local_worker is_client))
            None None)
    by (by destruct local_worker).
  simpl. rewrite HT1. simpl. rewrite Hl. simpl. rewrite HT3. simpl.
  unfold get_to_auto_overload; simpl. rewrite lookup_insert_eq. simpl.
  rewrite HT4. simpl. rewrite lookup_insert_eq. simpl.
  unfold _hook_pointer_tensor_methods. rewrite HP. simpl.
  unfold _hook_syft_tensor_methods. rewrite HL. simpl.
  rewrite HF. simpl. eauto.
Qed.

Example demo_first_hook_ok :
  demo_first_hook = Ok (demo_hook, demo_hooked_world).
Proof. vm_compute. reflexivity. Qed.

Example demo_hooked_Tensor_dir :
  dir (torch_Tensor demo_hooked_world)
  = ["__abstractmethods__"; "__eq__"; "__init__"; "__repr__"; "add"; "forward";
     "id"; "id_at_location"; "is_wrapper"; "location"; "native___init__";
     "native___repr__"; "native_add"; "native_norm"; "native_sum";
     "native_unnamed"; "nativity"; "norm"; "send"; "shape"; "sum"; "unnamed"].
Proof. vm_compute. reflexivity. Qed.

Example demo_hooked_Tensor_sum :
  m_code <$> ns_attrs (torch_Tensor demo_hooked_world) !! "sum"
  = Some (Native "sum") ∧
  m_qualname <$> ns_attrs (torch_Tensor demo_hooked_world) !! "sum"
  = Some (Some "TorchTensor.sum") ∧
  m_code <$> ns_attrs (torch_Tensor demo_hooked_world) !! "add"
  = Some (HookedMethod "add") ∧
  dir (torch_nn_functional demo_hooked_world)
  = ["Tensor"; "__eq__"; "conv2d"; "for_native_use"; "native_conv2d";
     "native_relu"; "relu"].
Proof. vm_compute. auto. Qed.

Lemma which_methods_no_native (exclude : list string)
    (object_ tensor_type : namespace) (l : list string) :
  _which_methods_should_we_auto_overload exclude object_ tensor_type = Ok l →
  ∀ a, a ∈ l → String.prefix "native_" a = false.
Proof.
  rewrite which_methods_computes. intros [= <-] a [Ha _]%list_elem_of_filter.
  by eapply auto_overloaded_not_native.
Qed.

Lemma hook_native_methods_idempotent (l : list string) (T T' : namespace) :
  _hook_native_methods l T = Ok T' → _hook_native_methods l T' = Ok T'.
Proof.
  intros H. apply hook_native_methods_skip.
  by apply (hook_native_methods_dir l T T').
Qed.

(** C5.  Hooking is idempotent.  After a first hook has completed, a second
    construction finds the marker, logs one warning and leaves every
    dispatch table as it is; running the pass that saves the originals
    again changes nothing, because each [native_] name is already there;
    and no saved original is itself a dispatcher, so no operation has more
    than one level of saved original. *)
Theorem hooking_is_idempotent (exclude : list string) (object_ : namespace)
    (self1 self2 : nat) (local_worker1 local_worker2 : option worker)
    (is_client1 verbose1 is_client2 verbose2 : bool)
    (w w1 : world) (hook1 : TorchHook) :
  torch_torch_hooked w = false →
  no_dispatcher (torch_Tensor w) →
  no_dispatcher (syft_TorchTensor w) →
  __init__ exclude object_ self1 local_worker1 is_client1 verbose1 w
    = Ok (hook1, w1) →
  ∃ hook2 w2 l,
    __init__ exclude object_ self2 local_worker2 is_client2 verbose2 w1
      = Ok (hook2, w2) ∧
    dispatch_tables w2 = dispatch_tables w1 ∧
    logging_warning w2
      = logging_warning w1
        ++ ["Torch was already hooked... skipping hooking process"] ∧
    get_to_auto_overload hook1 "torch.Tensor" = Ok l ∧
    _hook_native_methods l (torch_Tensor w1) = Ok (torch_Tensor w1) ∧
    (∀ a, a ∈ l → ("native_" +:+ a) ∈ dir (torch_Tensor w1)) ∧
    (∀ a m, ns_attrs (torch_Tensor w1) !! ("native_" +:+ a) = Some m →
       is_dispatcher m = false).
Proof.
  intros Hh HT HTT Hinit.
  apply init_first in Hinit as
    (T1 & l & T3 & T4 & P' & L' & F' & HT1 & Hl & HT3 & HT4 & HP & HL & HF
     & -> & ->); [|done].
  eexists _, _, l. split; [by apply init_already_hooked|].
  split; [done|]. split; [done|].
  split; [unfold get_to_auto_overload; simpl; by rewrite lookup_insert_eq|].
  simpl. split; [by eapply hook_native_methods_idempotent|].
  split; [by apply (hook_native_methods_dir l T3 T4)|].
  intros a m Hm. destruct (is_dispatcher m) eqn:Hd; [|done].
  assert (HT3nd : no_dispatcher T3).
  { eapply no_dispatcher_add_methods; [exact HTT| |exact HT3].
    apply no_dispatcher_hook_properties.
    by apply (no_dispatcher_add_registration (torch_Tensor w) T1 true). }
  destruct (hook_native_methods_dispatchers (λ n, n ∈ l) l T3 T4)
    with ("native_" +:+ a) m as [_ Hin]; auto.
  - intros n m' Hn Hd'. by rewrite (HT3nd _ _ Hn) in Hd'.
  - apply (which_methods_no_native _ _ _ _ Hl) in Hin.
    by rewrite prefix_native_name in Hin.
Qed.

Lemma hooking_is_idempotent_witness :
  ∃ hook2 w2 l,
    __init__ demo_exclude demo_object 2 (Some demo_bob) false true
      demo_hooked_world = Ok (hook2, w2) ∧
    dispatch_tables w2 = dispatch_tables demo_hooked_world ∧
    logging_warning w2
      = logging_warning demo_hooked_world
        ++ ["Torch was already hooked... skipping hooking process"] ∧
    get_to_auto_overload demo_hook "torch.Tensor" = Ok l ∧
    _hook_native_methods l (torch_Tensor demo_hooked_world)
      = Ok (torch_Tensor demo_hooked_world) ∧
    (∀ a, a ∈ l → ("native_" +:+ a) ∈ dir (torch_Tensor demo_hooked_world)) ∧
    (∀ a m, ns_attrs (torch_Tensor demo_hooked_world) !! ("native_" +:+ a)
            = Some m → is_dispatcher m = false).
Proof.
  apply (hooking_is_idempotent demo_exclude demo_object 1 2
           (Some demo_alice) (Some demo_bob) true true false true
           demo_world demo_hooked_world demo_hook).
  - reflexivity.
  - apply map_Forall_lookup. by_compute.
  - apply map_Forall_lookup. by_compute.
  - vm_compute. reflexivity.
Defined.

(** C10.  Once the module carries the marker, a construction discards the
    worker it is given: the new hook's [local_worker] is [syft.local_worker],
    which is the worker the first hook kept. *)
Theorem second_hook_shares_first_local_worker (exclude : list string)
    (object_ : namespace) (self1 self2 : nat)
    (local_worker1 local_worker2 : option worker)
    (is_client1 verbose1 is_client2 verbose2 : bool)
    (w w1 : world) (hook1 : TorchHook) :
  torch_torch_hooked w = false →
  __init__ exclude object_ self1 local_worker1 is_client1 verbose1 w
    = Ok (hook1, w1) →
  ∃ hook2 w2 lw,
    __init__ exclude object_ self2 local_worker2 is_client2 verbose2 w1
      = Ok (hook2, w2) ∧
    self_local_worker hook2 = Some lw ∧
    syft_local_worker w1 = Some lw ∧
    self_local_worker hook1 = Some lw ∧
    syft_local_worker w2 = Some lw.
Proof.
  intros Hh Hinit.
  apply init_first in Hinit as
    (T1 & l & T3 & T4 & P' & L' & F' & _ & _ & _ & _ & _ & _ & _ & -> & ->);
    [|done].
  eexists _, _, _. split; [by apply init_already_hooked|]. done.
Qed.

Lemma second_hook_shares_first_local_worker_witness :
  ∃ hook2 w2 lw,
    __init__ demo_exclude demo_object 2 (Some demo_bob) false true
      demo_hooked_world = Ok (hook2, w2) ∧
    self_local_worker hook2 = Some lw ∧
    syft_local_worker demo_hooked_world = Some lw ∧
    self_local_worker demo_hook = Some lw ∧
    syft_local_worker w2 = Some lw.
Proof.
  apply (second_hook_shares_first_local_worker demo_exclude demo_object 1 2
           (Some demo_alice) (Some demo_bob) true true false true
           demo_world demo_hooked_world demo_hook).
  - reflexivity.
  - vm_compute. reflexivity.
Defined.

Example demo_second_hook_worker :
  ∃ hook2 w2,
    __init__ demo_exclude demo_object 2 (Some demo_bob) false true
      demo_hooked_world = Ok (hook2, w2) ∧
    self_local_worker hook2 = Some (Worker "alice" (Some 1) false).
Proof. eexists _, _. split; [apply init_already_hooked|]; reflexivity. Qed.

(** ** Calls through the dispatchers *)

Example demo_call_add_on_native :
  demo_call_method 5 (VNative 2) "add" [VInt 3] []
  = ([native_call "add" (VNative 2) [VInt 3] []], Ok (VNative 5)).
Proof. vm_compute. reflexivity. Qed.

Example demo_call_add_on_wrapper :
  demo_call_method 5 (VWrapper (VNative 2)) "add" [VInt 3] []
  = ([native_call "add" (VNative 2) [VInt 3] []], Ok (VWrapper (VNative 5))).
Proof. vm_compute. reflexivity. Qed.

Example demo_call_add_on_wrapped_pointer :
  demo_call_method 5 (VWrapper (VPointer demo_alice demo_bob 7)) "add" [VInt 3] []
  = ([send_command_call demo_alice demo_bob
        (VTuple [VStr "add"; VPointer demo_alice demo_bob 7; VTuple [VInt 3]])],
     Ok (VWrapper (VPointer demo_alice demo_bob 8))).
Proof. vm_compute. reflexivity. Qed.

Example demo_call_out_of_depth :
  demo_call_method 1 (VWrapper (VNative 2)) "add" [VInt 3] []
  = ([], Raise RecursionError).
Proof. vm_compute. reflexivity. Qed.

Lemma C_bind_ret {A} (x : C A) : (x ≫= mret) = x.
Proof.
  destruct x as [t [a|e]]; unfold mbind, C_bind, mret, C_ret; simpl; [|done].
  by rewrite app_nil_r.
Qed.

(** Unwrapping one level undoes rehydration, whatever the raw response. *)
Lemma unwrap_hook_response (attr : string) (wrap_type : pyclass) (r : value) :
  wrap_type = torch_Tensor_t ∨ wrap_type = LoggingTensor_t →
  unwrap_one_level (hook_response attr r wrap_type) = r.
Proof.
  intros Hty. induction r as [| | |vs IH| | | |] using value_ind; simpl;
    try (by destruct Hty as [-> | ->]).
  f_equal. rewrite map_map. induction IH as [|v vs Hv _ IHvs]; simpl; [done|].
  by rewrite Hv, IHvs.
Qed.

Section DispatchFacts.
Variable w : world.
Variable send_command : worker → worker → value → outcome value.
Variable native : string → value → list value → kwargs_t → outcome value.
Variable handle_func_command : value → outcome value.
Variable initialize_tensor :
  value → value → bool → list value → kwargs_t → outcome value.

Local Abbreviation call :=
  (call_method w send_command native handle_func_command initialize_tensor).

Lemma call_method_unfold (depth : nat) (self : value) (attr : string)
    (args : list value) (kwargs : kwargs_t) (cls : namespace) (m : member) :
  class_of w self = Ok cls →
  ns_attrs cls !! attr = Some m →
  call (S depth) self attr args kwargs
  = call_member send_command native handle_func_command initialize_tensor
      (call depth) m self args kwargs.
Proof.
  intros Hcls Hm. simpl. rewrite Hcls. unfold getattr. rewrite Hm.
  unfold mbind, C_bind. simpl.
  by destruct (call_member _ _ _ _ _ _ _ _ _).
Qed.

Local Arguments call_method : simpl never.

(** A saved original runs the library's operation, once. *)
Lemma call_native (depth : nat) (self : value) (name op : string)
    (args : list value) (kwargs : kwargs_t) (cls : namespace) (m : member) :
  class_of w self = Ok cls →
  ns_attrs cls !! name = Some m →
  m_code m = Native op →
  call (S depth) self name args kwargs
  = ([native_call op self args kwargs], native op self args kwargs).
Proof.
  intros Hcls Hm Hop. rewrite (call_method_unfold _ _ _ _ _ cls m) by done.
  unfold call_member. by rewrite Hop.
Qed.

(** The hooked method on a receiver without [child]: the saved original
    is called on the positional arguments and on no keyword argument. *)
Lemma hooked_method_on_native (depth : nat) (data : Z) (attr op : string)
    (args : list value) (kwargs : kwargs_t) (m : member) :
  ns_attrs (torch_Tensor w) !! attr = Some (get_hooked_method attr) →
  ns_attrs (torch_Tensor w) !! ("native_" +:+ attr) = Some m →
  m_code m = Native op →
  call (S (S depth)) (VNative data) attr args kwargs
  = ([native_call op (VNative data) args []],
     native op (VNative data) args []).
Proof.
  intros Hattr Hm Hop.
  rewrite (call_method_unfold _ _ _ _ _ (torch_Tensor w) (get_hooked_method attr))
    by done.
  unfold call_member, hooked_method; simpl.
  rewrite (call_native depth (VNative data) _ op args [] (torch_Tensor w) m)
    by done.
  apply C_bind_ret.
Qed.
(** For a receiver without [child], the hooked method runs the saved
    original on the positional arguments and returns its result; the
    keyword arguments of the caller are not passed on. *)
Lemma hooked_method_on_native_receiver (depth : nat) (data : Z)
    (attr op : string) (args : list value) (kwargs : kwargs_t) (m : member) :
  ns_attrs (torch_Tensor w) !! attr = Some (get_hooked_method attr) →
  ns_attrs (torch_Tensor w) !! ("native_" +:+ attr) = Some m →
  m_code m = Native op →
  call (S (S depth)) (VNative data) attr args kwargs
  = call (S depth) (VNative data) ("native_" +:+ attr) args [] ∧
  call (S depth) (VNative data) ("native_" +:+ attr) args []
  = ([native_call op (VNative data) args []],
     native op (VNative data) args []).
Proof.
  intros Hattr Hm Hop.
  rewrite (hooked_method_on_native depth data attr op args kwargs m) by done.
  by rewrite (call_native depth (VNative data) _ op args [] (torch_Tensor w) m).
Qed.

Lemma wrapper_dispatch (depth : nat) (self child : value) (attr : string)
    (args : list value) (kwargs : kwargs_t) :
  wraps w self child attr →
  call (S depth) self attr args kwargs
  = (response ← call depth child attr (map unwrap_one_level args) kwargs;
     mret (hook_response attr response (type_ self))).
Proof.
  intros [[-> Hm]|[-> Hm]].
  - by rewrite (call_method_unfold _ _ _ _ _ (torch_Tensor w)
                  (get_hooked_method attr)).
  - by rewrite (call_method_unfold _ _ _ _ _ (syft_LoggingTensor w)
                  (get_hooked_syft_method attr)).
Qed.

(** C1.  On a wrapper receiver the dispatcher unwraps the receiver and the
    positional arguments one level, calls the operation of the same name
    on the unwrapped receiver with the unwrapped arguments and the keyword
    arguments as given, and rehydrates the raw response with the type of
    the receiver.  Unwrapping the result one level gives back the raw
    response, which is what the same call made directly on the child
    returns; when the child is a native tensor and the arguments are
    native, that is what the saved original returns on the positional
    arguments, and it is the only operation run. *)
Theorem wrapper_dispatch_round_trip (depth : nat) (self child : value)
    (attr : string) (args : list value) (kwargs : kwargs_t) :
  wraps w self child attr →
  call (S depth) self attr args kwargs
  = (response ← call depth child attr (map unwrap_one_level args) kwargs;
     mret (hook_response attr response (type_ self))) ∧
  (∀ trace response,
     call depth child attr (map unwrap_one_level args) kwargs
       = (trace, Ok response) →
     call (S depth) self attr args kwargs
       = (trace, Ok (hook_response attr response (type_ self))) ∧
     unwrap_one_level (hook_response attr response (type_ self)) = response) ∧
  (∀ data op m depth' result,
     child = VNative data →
     depth = S (S depth') →
     map unwrap_one_level args = args →
     ns_attrs (torch_Tensor w) !! attr = Some (get_hooked_method attr) →
     ns_attrs (torch_Tensor w) !! ("native_" +:+ attr) = Some m →
     m_code m = Native op →
     native op (VNative data) args [] = Ok result →
     call depth child attr args kwargs
       = ([native_call op (VNative data) args []], Ok result) ∧
     call (S depth) self attr args kwargs
       = ([native_call op (VNative data) args []],
          Ok (hook_response attr result (type_ self))) ∧
     unwrap_one_level (hook_response attr result (type_ self)) = result).
Proof.
  intros Hw.
  assert (Hty : type_ self = torch_Tensor_t ∨ type_ self = LoggingTensor_t)
    by (destruct Hw as [[-> _]|[-> _]]; auto).
  split; [by apply wrapper_dispatch|]. split.
  - intros trace response Hc. split; [|by apply unwrap_hook_response].
    rewrite (wrapper_dispatch depth self child) by done. rewrite Hc.
    unfold mbind, C_bind, mret, C_ret. simpl. by rewrite app_nil_r.
  - intros data op m depth' result -> -> Hargs Hattr Hm Hop Hres.
    assert (Hdirect : call (S (S depth')) (VNative data) attr args kwargs
                      = ([native_call op (VNative data) args []], Ok result)).
    { rewrite (hooked_method_on_native depth' data attr op args kwargs m)
        by done.
      by rewrite Hres. }
    split; [done|]. split; [|by apply unwrap_hook_response].
    rewrite (wrapper_dispatch _ self (VNative data)) by done.
    rewrite Hargs, Hdirect. done.
Qed.

(** C2 (amended).  On a pointer receiver the dispatcher makes one call,
    [owner.send_command(location, command)], where [command] is the
    triple of the operation name, the pointer itself and the positional
    arguments as given; it returns what [send_command] returns, or raises
    what it raises, and runs no operation of the numeric library. *)
Theorem pointer_dispatch_forwards (depth : nat) (owner location : worker)
    (id_at_location : Z) (attr : string) (args : list value)
    (kwargs : kwargs_t) :
  ns_attrs (syft_PointerTensor w) !! attr
    = Some (get_hooked_pointer_method attr) →
  let self := VPointer owner location id_at_location in
  let command := VTuple [VStr attr; self; VTuple args] in
  call (S depth) self attr args kwargs
  = ([send_command_call owner location command],
     send_command owner location command).
Proof.
  intros Hm self command.
  rewrite (call_method_unfold _ _ _ _ _ (syft_PointerTensor w)
             (get_hooked_pointer_method attr)) by done.
  unfold call_member, hooked_pointer_method; simpl.
  fold self. fold command.
  by destruct (send_command owner location command).
Qed.
End DispatchFacts.

Lemma wrapper_dispatch_round_trip_witness :
  wraps demo_hooked_world (VWrapper (VNative 2)) (VNative 2) "add" ∧
  demo_call_method 4 (VNative 2) "add" [VInt 3] []
  = ([native_call "add" (VNative 2) [VInt 3] []], Ok (VNative 5)) ∧
  demo_call_method 5 (VWrapper (VNative 2)) "add" [VInt 3] []
  = ([native_call "add" (VNative 2) [VInt 3] []],
     Ok (hook_response "add" (VNative 5) torch_Tensor_t)) ∧
  unwrap_one_level (hook_response "add" (VNative 5) torch_Tensor_t) = VNative 5.
Proof.
  assert (Hw : wraps demo_hooked_world (VWrapper (VNative 2)) (VNative 2) "add")
    by (left; split; [reflexivity|by vm_compute]).
  split; [exact Hw|].
  destruct (wrapper_dispatch_round_trip demo_hooked_world demo_send_command
              demo_native demo_handle_func_command demo_initialize_tensor
              4 (VWrapper (VNative 2)) (VNative 2) "add" [VInt 3] [] Hw)
    as (_ & _ & H).
  apply (H 2%Z "add" (demo_descriptor "add") 2 (VNative 5));
    try reflexivity; by vm_compute.
Defined.

(** C3, at a failing input.  [x.add(3, alpha=2)] on a bare native tensor
    holding [2]: the library's [add] returns [2 + 2 * 3 = 8] on these
    arguments, the hooked [add] runs the saved original without [alpha] and
    returns [5]. *)
Theorem hooked_method_drops_keyword_arguments :
  demo_call_method 5 (VNative 2) "add" [VInt 3] [("alpha", VInt 2)]
  = ([native_call "add" (VNative 2) [VInt 3] []], Ok (VNative 5)) ∧
  demo_native "add" (VNative 2) [VInt 3] [("alpha", VInt 2)] = Ok (VNative 8) ∧
  demo_call_method 5 (VWrapper (VNative 2)) "add" [VInt 3] [("alpha", VInt 2)]
  = ([native_call "add" (VNative 2) [VInt 3] []], Ok (VWrapper (VNative 5))).
Proof. vm_compute. auto. Qed.

Lemma pointer_dispatch_forwards_witness :
  ns_attrs (syft_PointerTensor demo_hooked_world) !! "add"
    = Some (get_hooked_pointer_method "add") ∧
  demo_call_method 1 (VPointer demo_alice demo_bob 7) "add" [VInt 3]
    [("alpha", VInt 2)]
  = ([send_command_call demo_alice demo_bob
        (VTuple [VStr "add"; VPointer demo_alice demo_bob 7; VTuple [VInt 3]])],
     Ok (VPointer demo_alice demo_bob 8)).
Proof.
  assert (H : ns_attrs (syft_PointerTensor demo_hooked_world) !! "add"
              = Some (get_hooked_pointer_method "add")) by (by vm_compute).
  split; [exact H|].
  exact (pointer_dispatch_forwards demo_hooked_world demo_send_command
           demo_native demo_handle_func_command demo_initialize_tensor
           0 demo_alice demo_bob 7 "add" [VInt 3] [("alpha", VInt 2)] H).
Defined.

(** C2 as stated fails: the receiver slot of the command holds the pointer
    on which the operation was invoked, not a wrapper around it.  This is so
    when the operation is invoked on the pointer and also when it is invoked
    on the [torch.Tensor] that wraps the pointer, in which case the response
    does not come back as it is but rehydrated. *)
Lemma pointer_command_receiver_is_the_pointer :
  let pointer := VPointer demo_alice demo_bob 7 in
  (¬ ∃ proxy,
       hasattr_child proxy = true ∧
       unwrap_one_level proxy = pointer ∧
       fst (demo_call_method 5 pointer "add" [VInt 3] [])
       = [send_command_call demo_alice demo_bob
            (VTuple [VStr "add"; proxy; VTuple [VInt 3]])]) ∧
  (¬ ∃ proxy,
       hasattr_child proxy = true ∧
       unwrap_one_level proxy = pointer ∧
       fst (demo_call_method 5 (VWrapper pointer) "add" [VInt 3] [])
       = [send_command_call demo_alice demo_bob
            (VTuple [VStr "add"; proxy; VTuple [VInt 3]])]) ∧
  snd (demo_call_method 5 (VWrapper pointer) "add" [VInt 3] [])
  ≠ demo_send_command demo_alice demo_bob
      (VTuple [VStr "add"; pointer; VTuple [VInt 3]]).
Proof.
  intros pointer. split; [|split].
  - intros (proxy & Hc & _ & H). vm_compute in H.
    injection H as <-. discriminate.
  - intros (proxy & Hc & _ & H). vm_compute in H.
    injection H as <-. discriminate.
  - vm_compute. discriminate.
Qed.

(** ** Module-level functions *)

Lemma hook_torch_module_step_ok (exclude : list string) (func : string)
    (torch_module torch_module' : namespace) :
  hooked_funcs_ok exclude torch_module →
  _hook_torch_module_step exclude func torch_module = Ok torch_module' →
  hooked_funcs_ok exclude torch_module'.
Proof.
  intros HJ. unfold _hook_torch_module_step.
  destruct (bool_decide (func ∈ exclude)) eqn:Hex; [by intros [= <-]|].
  apply bool_decide_eq_false in Hex.
  destruct (str_in "native_" func) eqn:Hn; simpl; [by intros [= <-]|].
  destruct (bool_decide ("native_" +:+ func ∈ dir torch_module)) eqn:Hd;
    [by intros [= <-]|].
  apply bool_decide_eq_false in Hd.
  unfold getattr.
  destruct (ns_attrs torch_module !! func) as [nf|] eqn:Hnf; simpl; [|done].
  destruct (bool_decide (m_type nf ∈ [FunctionType; BuiltinFunctionType]))
    eqn:Hty; [|by intros [= <-]].
  apply bool_decide_eq_true in Hty.
  intros [= <-] n m. simpl. rewrite !dir_setattr, !lookup_insert.
  case_decide as H1; [subst n|case_decide as H2; [subst n|]].
  - intros [= <-] _. split; [done|]. split; [done|]. split; [auto|]. eauto.
  - intros [= <-] Hdisp. destruct (HJ _ _ Hnf Hdisp) as (_ & _ & ? & _). done.
  - intros Hm Hdisp. destruct (HJ _ _ Hm Hdisp) as (? & ? & ? & ?).
    repeat split; auto.
Qed.

Section FreeFunctions.
Variable native : string → value → list value → kwargs_t → outcome value.
Variable handle_func_command : value → outcome value.

(** C7.  A hooked module function builds the command
    [(module-qualified name, None, args)], in which the keyword arguments
    do not appear, hands it to [TorchTensor.handle_func_command] and
    returns the result.  [_hook_torch_module] puts such a dispatcher only
    on names that are not excluded and contain no [native_], and an
    iteration on an excluded name, on a name with [native_] in it or on a
    name whose [native_] twin exists leaves the module as it is. *)
Theorem free_function_dispatch (exclude : list string)
    (torch_module torch_module' : namespace) :
  no_dispatcher torch_module →
  _hook_torch_module exclude torch_module = Ok torch_module' →
  (∀ func m args kwargs,
     ns_attrs torch_module' !! func = Some m → is_dispatcher m = true →
     (func ∉ exclude) ∧ str_in "native_" func = false ∧
     ∃ native_func,
       m = get_hooked_func native_func ∧
       let cmd_name := m_module native_func +:+ "." +:+ m_name native_func in
       let command := VTuple [VStr cmd_name; VNone; VTuple args] in
       call_function native handle_func_command torch_module' func args kwargs
       = ([handle_func_command_call command], handle_func_command command)) ∧
  (∀ func m, func ∈ exclude ∨ str_in "native_" func = true
             ∨ ("native_" +:+ func) ∈ dir m →
     _hook_torch_module_step exclude func m = Ok m).
Proof.
  intros Hnd Hpass. split.
  - intros func m args kwargs Hm Hdisp.
    assert (HJ : hooked_funcs_ok exclude torch_module').
    { revert Hpass. unfold _hook_torch_module.
      apply for_in_invariant.
      - intros x s s'. apply hook_torch_module_step_ok.
      - intros n m' Hn Hd. by rewrite (Hnd _ _ Hn) in Hd. }
    destruct (HJ _ _ Hm Hdisp) as (Hex & Hn & _ & nf & -> & _).
    split; [done|]. split; [done|]. exists nf. split; [done|].
    unfold call_function, getattr. rewrite Hm. simpl.
    unfold hooked_func.
    by destruct (handle_func_command _).
  - intros func m H. unfold _hook_torch_module_step.
    destruct (bool_decide (func ∈ exclude)) eqn:Hex; [done|].
    apply bool_decide_eq_false in Hex.
    destruct H as [H|[H|H]]; [done|by rewrite H|].
    rewrite (bool_decide_eq_true_2 _ H). by rewrite orb_true_r.
Qed.
End FreeFunctions.

Lemma free_function_dispatch_witness :
  no_dispatcher demo_functional ∧
  _hook_torch_module demo_exclude demo_functional
    = Ok (torch_nn_functional demo_hooked_world) ∧
  call_function demo_native demo_handle_func_command
    (torch_nn_functional demo_hooked_world) "relu" [VNative 2]
    [("inplace", VInt 1)]
  = ([handle_func_command_call
        (VTuple [VStr "torch.nn.functional.relu"; VNone; VTuple [VNative 2]])],
     Ok (VTuple [VStr "torch.nn.functional.relu"; VNone; VTuple [VNative 2]])) ∧
  _hook_torch_module_step demo_exclude "for_native_use" demo_functional
    = Ok demo_functional.
Proof.
  assert (Hnd : no_dispatcher demo_functional)
    by (apply map_Forall_lookup; by_compute).
  assert (Hpass : _hook_torch_module demo_exclude demo_functional
                  = Ok (torch_nn_functional demo_hooked_world))
    by (vm_compute; reflexivity).
  destruct (free_function_dispatch demo_native demo_handle_func_command
              demo_exclude demo_functional
              (torch_nn_functional demo_hooked_world) Hnd Hpass) as [H1 H2].
  split; [exact Hnd|]. split; [exact Hpass|]. split.
  - destruct (H1 "relu"
                (get_hooked_func
                   (Member FunctionType (Some "relu") "torch.nn.functional"
                      "relu" (Native "relu")))
                [VNative 2] [("inplace", VInt 1)])
      as (_ & _ & nf & Hnf & Hcall); [by vm_compute|reflexivity|].
    injection Hnf as Hq Hmod Hname. rewrite <- Hmod, <- Hname in Hcall.
    exact Hcall.
  - apply H2. right. left. reflexivity.
Defined.

Example demo_functional_hooked :
  (m_code <$> ns_attrs (torch_nn_functional demo_hooked_world) !! "__eq__")
  = Some (Native "__eq__") ∧
  (m_code <$> ns_attrs (torch_nn_functional demo_hooked_world) !! "for_native_use")
  = Some (Native "for_native_use") ∧
  (m_code <$> ns_attrs (torch_nn_functional demo_hooked_world) !! "conv2d")
  = Some (HookedFunc "torch" "conv2d") ∧
  (m_code <$> ns_attrs (torch_nn_functional demo_hooked_world) !! "Tensor")
  = Some (Native "Tensor").
Proof. vm_compute. auto. Qed.

(** ** The [id] property *)

Lemma round_53_bounds (N : Z) :
  (0 ≤ N < 2 ^ 90)%Z → (0 ≤ round_53 N ≤ N + 2 ^ 36)%Z.
Proof.
  intros [HN0 HN]. unfold round_53.
  destruct (Z.leb_spec (Z.log2 N + 1) 53) as [Hb|Hb]; [lia|].
  assert (Hpos : (0 < N)%Z).
  { destruct (Z.eq_dec N 0%Z) as [->|]; [simpl in Hb; lia|lia]. }
  assert (Hlog : (Z.log2 N < 90)%Z).
  { apply (proj1 (Z.log2_lt_pow2 N 90%Z Hpos)). lia. }
  set (s := (Z.log2 N + 1 - 53)%Z).
  assert (Hs : (1 ≤ s ≤ 37)%Z) by (unfold s; lia).
  rewrite Z.land_ones by lia.
  rewrite Z.shiftr_div_pow2 by lia.
  rewrite Z.shiftl_mul_pow2 by lia.
  rewrite Z.shiftl_mul_pow2 by lia.
  assert (Hpow : (2 ^ s = 2 * 2 ^ (s - 1))%Z).
  { replace s with (Z.succ (s - 1)) at 1 by lia. apply Z.pow_succ_r. lia. }
  assert (Hhalf : (0 < 2 ^ (s - 1) ≤ 2 ^ 36)%Z).
  { split; [apply Z.pow_pos_nonneg; lia|apply Z.pow_le_mono_r; lia]. }
  pose proof (Z.div_mod N (2 ^ s)) as Hdm.
  pose proof (Z.mod_pos_bound N (2 ^ s)) as Hmod.
  assert (Hq : (0 ≤ N / 2 ^ s)%Z) by (apply Z.div_pos; lia).
  set (q := (N / 2 ^ s)%Z) in *. set (r := (N mod 2 ^ s)%Z) in *.
  set (h := (2 ^ (s - 1))%Z) in *. set (P := (2 ^ s)%Z) in *.
  rewrite Z.mul_1_l.
  destruct (Z.ltb_spec r h); [nia|].
  destruct (Z.ltb_spec h r); [nia|].
  destruct (Z.even q); nia.
Qed.

Lemma int_10e10_times_bounds (k : Z) :
  (0 ≤ k < 2 ^ 53)%Z → (0 ≤ int_10e10_times k < 10 ^ 11)%Z.
Proof.
  intros Hk. unfold int_10e10_times.
  assert (HN : (0 ≤ 100000000000 * k < 2 ^ 90)%Z) by lia.
  pose proof (round_53_bounds _ HN) as [H0 H1].
  rewrite Z.shiftr_div_pow2 by lia. split.
  - apply Z.div_pos; lia.
  - apply Z.div_lt_upper_bound; lia.
Qed.

(** Rounding never goes below a multiple of [2^53] that the exact value
    has reached: such a multiple has at most 37 significant bits here and
    is a double itself. *)
Lemma round_53_floor (N : Z) :
  (0 ≤ N < 2 ^ 90)%Z → (N / 2 ^ 53 * 2 ^ 53 ≤ round_53 N)%Z.
Proof.
  intros [HN0 HN]. unfold round_53.
  pose proof (Z.mul_div_le N (2 ^ 53)) as Hfl.
  destruct (Z.leb_spec (Z.log2 N + 1) 53) as [Hb|Hb]; [lia|].
  assert (Hpos : (0 < N)%Z).
  { destruct (Z.eq_dec N 0%Z) as [->|]; [simpl in Hb; lia|lia]. }
  assert (Hlog : (Z.log2 N < 90)%Z).
  { apply (proj1 (Z.log2_lt_pow2 N 90%Z Hpos)). lia. }
  set (s := (Z.log2 N + 1 - 53)%Z).
  assert (Hs : (1 ≤ s ≤ 37)%Z) by (unfold s; lia).
  rewrite Z.shiftr_div_pow2 by lia.
  rewrite Z.shiftl_mul_pow2 by lia.
  assert (HP : (0 < 2 ^ s)%Z) by (apply Z.pow_pos_nonneg; lia).
  assert (Hsplit : (2 ^ 53 = 2 ^ (53 - s) * 2 ^ s)%Z).
  { rewrite <- Z.pow_add_r by lia. f_equal. lia. }
  assert (HQ : (0 < 2 ^ (53 - s))%Z) by (apply Z.pow_pos_nonneg; lia).
  assert (Hn : (0 ≤ N / 2 ^ 53)%Z) by (apply Z.div_pos; lia).
  assert (Hq : (N / 2 ^ 53 * 2 ^ (53 - s) ≤ N / 2 ^ s)%Z).
  { apply Z.div_le_lower_bound; [lia|]. nia. }
  set (q := (N / 2 ^ s)%Z) in *.
  set (q' := if (Z.land N (Z.ones s) <? Z.shiftl 1 (s - 1))%Z then q
             else if (Z.shiftl 1 (s - 1) <? Z.land N (Z.ones s))%Z then (q + 1)%Z
             else if Z.even q then q else (q + 1)%Z).
  assert (Hq' : (q ≤ q')%Z).
  { unfold q'. repeat match goal with |- context [if ?b then _ else _] =>
      destruct b end; lia. }
  nia.
Qed.

(** The integer part of the rounded value is that of the exact value
    plus half the spacing of the doubles around it: nothing while [N] has at
    most 53 significant bits, [2^(log2 N - 53)] beyond. *)
Lemma round_53_nearest (N : Z) :
  (0 ≤ N < 2 ^ 90)%Z →
  (round_53 N / 2 ^ 53
   = (N + (if Z.log2 N + 1 <=? 53 then 0 else 2 ^ (Z.log2 N - 53))) / 2 ^ 53)%Z.
Proof.
  intros [HN0 HN]. unfold round_53.
  destruct (Z.leb_spec (Z.log2 N + 1) 53) as [Hb|Hb]; [by rewrite Z.add_0_r|].
  assert (Hpos : (0 < N)%Z).
  { destruct (Z.eq_dec N 0%Z) as [->|]; [simpl in Hb; lia|lia]. }
  assert (Hlog : (Z.log2 N < 90)%Z).
  { apply (proj1 (Z.log2_lt_pow2 N 90%Z Hpos)). lia. }
  replace (Z.log2 N - 53)%Z with (Z.log2 N + 1 - 53 - 1)%Z by lia.
  set (s := (Z.log2 N + 1 - 53)%Z).
  assert (Hs : (1 ≤ s ≤ 37)%Z) by (unfold s; lia).
  rewrite Z.land_ones by lia.
  rewrite Z.shiftr_div_pow2 by lia.
  rewrite Z.shiftl_mul_pow2 by lia.
  rewrite Z.shiftl_mul_pow2 by lia.
  rewrite Z.mul_1_l.
  assert (Hpow : (2 ^ s = 2 * 2 ^ (s - 1))%Z).
  { replace s with (Z.succ (s - 1)) at 1 by lia. apply Z.pow_succ_r. lia. }
  assert (Hh : (0 < 2 ^ (s - 1))%Z) by (apply Z.pow_pos_nonneg; lia).
  assert (HB : (2 ^ 53 = 4 * 2 ^ (52 - s) * 2 ^ (s - 1))%Z).
  { replace 4%Z with (2 ^ 2)%Z by done. rewrite <- !Z.pow_add_r by lia.
    f_equal. lia. }
  assert (HQ2 : (0 < 2 ^ (52 - s))%Z) by (apply Z.pow_pos_nonneg; lia).
  rewrite !Hpow.
  pose proof (Z.div_mod N (2 * 2 ^ (s - 1))) as Hdm.
  pose proof (Z.mod_pos_bound N (2 * 2 ^ (s - 1))) as Hmod.
  pose proof (Z.div_mod N (2 ^ 53)) as Hdn.
  pose proof (Z.mod_pos_bound N (2 ^ 53)) as Hmodn.
  assert (Hn : (0 ≤ N / 2 ^ 53)%Z) by (apply Z.div_pos; lia).
  revert Hdn Hmodn Hn HB.
  generalize (N / 2 ^ 53)%Z as n. generalize (N mod 2 ^ 53)%Z as rn.
  generalize (2 ^ 53)%Z as B. intros B rn n Hdn Hmodn Hn HB.
  revert Hdm Hmod HB Hh HQ2.
  generalize (N / (2 * 2 ^ (s - 1)))%Z as q.
  generalize (N mod (2 * 2 ^ (s - 1)))%Z as r.
  generalize (2 ^ (s - 1))%Z as h. generalize (2 ^ (52 - s))%Z as Q2.
  intros Q2 h r q Hdm Hmod HB Hh HQ2.
  clear Hpow Hs Hb Hlog. clearbody s. clear s.
  assert (HqP : (N = q * (2 * h) + r)%Z) by lia.
  assert (Hr : (0 ≤ r < 2 * h)%Z) by lia.
  assert (Hqlo : (n * (2 * Q2) ≤ q)%Z) by nia.
  assert (Hqhi : (q + 1 ≤ (n + 1) * (2 * Q2))%Z) by nia.
  destruct (Z_lt_ge_dec (N + h) ((n + 1) * B)) as [HA|HA].
  - (* the rounded value stays below the next multiple *)
    transitivity n;
      [|apply Z.div_unique with (r := (rn + h)%Z); [left|]; nia].
    assert (Hlt : ∀ q', (q' = q ∨ (q' = q + 1 ∧ h ≤ r))%Z →
                    (q' * (2 * h) / B = n)%Z).
    { intros q' Hq'. symmetry.
      apply Z.div_unique with (r := (q' * (2 * h) - n * B)%Z); [left|nia].
      destruct Hq' as [->|[-> Hrh]]; nia. }
    destruct (Z.ltb_spec r h); [apply Hlt; auto|].
    destruct (Z.ltb_spec h r); [apply Hlt; right; lia|].
    destruct (Z.even q); apply Hlt; [auto|right; lia].
  - (* the exact value is within half a spacing of the next multiple *)
    assert (Hqv : (q = (n + 1) * (2 * Q2) - 1)%Z) by nia.
    assert (Hrh : (h ≤ r)%Z) by nia.
    assert (Hodd : Z.even q = false).
    { rewrite Hqv.
      replace ((n + 1) * (2 * Q2) - 1)%Z
        with (1 + 2 * ((n + 1) * Q2 - 1))%Z by lia.
      by rewrite Z.even_add_mul_2. }
    transitivity (n + 1)%Z;
      [|apply Z.div_unique with (r := (N + h - (n + 1) * B)%Z); [left|]; nia].
    assert (Hup : ((q + 1) * (2 * h) / B = n + 1)%Z).
    { symmetry. apply Z.div_unique with (r := 0%Z); [left|]; nia. }
    destruct (Z.ltb_spec r h); [lia|].
    destruct (Z.ltb_spec h r); [done|].
    by rewrite Hodd.
Qed.

(** [int(10e10 * r)] for [r = k / 2^53] is the integer part of the exact
    product [10^11 * k / 2^53], or the next integer when the product is
    within [2^-17] of it and is rounded up to it. *)
Lemma int_10e10_times_value (k : Z) :
  (0 ≤ k < 2 ^ 53)%Z →
  (100000000000 * k / 2 ^ 53 ≤ int_10e10_times k
     ≤ 100000000000 * k / 2 ^ 53 + 1)%Z ∧
  (int_10e10_times k * 2 ^ 53 ≤ 100000000000 * k + 2 ^ 36)%Z.
Proof.
  intros Hk. unfold int_10e10_times.
  assert (HN : (0 ≤ 100000000000 * k < 2 ^ 90)%Z) by lia.
  set (N := (100000000000 * k)%Z) in *.
  pose proof (round_53_bounds _ HN) as [H0 H1].
  pose proof (round_53_floor _ HN) as Hfl.
  rewrite Z.shiftr_div_pow2 by lia.
  pose proof (Z.mul_div_le (round_53 N) (2 ^ 53)) as Hr.
  pose proof (Z.div_mod N (2 ^ 53)) as Hdm.
  pose proof (Z.mod_pos_bound N (2 ^ 53)) as Hmod.
  split; [split|].
  - apply Z.div_le_lower_bound; lia.
  - assert (round_53 N / 2 ^ 53 < N / 2 ^ 53 + 2)%Z; [|lia].
    apply Z.div_lt_upper_bound; lia.
  - lia.
Qed.

Example int_10e10_times_half : int_10e10_times (2 ^ 52) = 50000000000%Z.
Proof. reflexivity. Qed.

(** A draw whose product is rounded up to the next integer. *)
Example int_10e10_times_rounded_up :
  int_10e10_times 6401588996318639 = 71071914979%Z ∧
  (100000000000 * 6401588996318639 / 2 ^ 53 = 71071914978)%Z.
Proof. vm_compute. auto. Qed.

Example int_10e10_times_largest :
  int_10e10_times (2 ^ 53 - 1) = 99999999999%Z.
Proof. vm_compute. reflexivity. Qed.

Lemma read_id_times_assigned (random_random : nat → Z) (n : nat)
    (self : instance) (rng : nat) (i : Z) :
  _id self = Some i →
  read_id_times random_random n self rng = (repeat i n, self, rng).
Proof.
  intros Hid. induction n as [|n IH]; simpl; [done|].
  unfold id_getter. rewrite Hid. by rewrite IH.
Qed.

(** C8.  The identifier is allocated lazily.  The first read of [id] on an
    instance without [_id] draws one number [r = k / 2^53] from
    [random.random()], stores [int(10e10 * r)] and returns it.  That value is
    fixed by the draw: it is the integer part of [10^11 * k / 2^53], or the
    next integer when the product is rounded up to it, which takes the exact
    product to be within [2^36 / 2^53] of that integer; so it is at least
    [0], strictly below [10^11], and as large as the draw makes it.  A read
    on an instance that has an [_id] returns it and changes nothing, so
    every later read returns the same value.  The last equation of the
    first case gives the value in closed form: the integer part of the
    exact product plus half the spacing of the doubles around it. *)
Theorem id_is_lazily_allocated (random_random : nat → Z) (self : instance)
    (rng : nat) :
  (∀ n, (0 ≤ random_random n < 2 ^ 53)%Z) →
  ∃ i self' rng',
    id_getter random_random self rng = (i, self', rng') ∧
    _id self' = Some i ∧
    (_id self = None →
       i = int_10e10_times (random_random rng) ∧ (0 ≤ i < 10 ^ 11)%Z ∧
       rng' = S rng ∧
       (100000000000 * random_random rng / 2 ^ 53 ≤ i
          ≤ 100000000000 * random_random rng / 2 ^ 53 + 1)%Z ∧
       (i * 2 ^ 53 ≤ 100000000000 * random_random rng + 2 ^ 36)%Z ∧
       (i = (100000000000 * random_random rng
             + (if Z.log2 (100000000000 * random_random rng) + 1 <=? 53
                then 0
                else 2 ^ (Z.log2 (100000000000 * random_random rng) - 53)))
            / 2 ^ 53)%Z) ∧
    (∀ j, _id self = Some j → i = j ∧ self' = self ∧ rng' = rng) ∧
    id_getter random_random self' rng' = (i, self', rng') ∧
    (∀ n, read_id_times random_random n self' rng' = (repeat i n, self', rng')).
Proof.
  intros Hrange. unfold id_getter.
  destruct (_id self) as [j|] eqn:Hid.
  - exists j, self, rng. rewrite Hid.
    split; [done|]. split; [done|]. split; [intros [=]|].
    split; [by intros k [= <-]|]. split; [done|].
    intros n. by apply read_id_times_assigned.
  - eexists _, _, _. split; [reflexivity|]. simpl.
    split; [done|]. split.
    { intros _. split; [done|].
      split; [by apply int_10e10_times_bounds|]. split; [done|].
      destruct (int_10e10_times_value (random_random rng) (Hrange rng))
        as [Hnear Hclose].
      split; [done|]. split; [done|].
      unfold int_10e10_times. rewrite Z.shiftr_div_pow2 by lia.
      apply round_53_nearest. specialize (Hrange rng). lia. }
    split; [intros k [=]|]. split; [done|].
    intros n. by apply read_id_times_assigned.
Qed.

Lemma id_is_lazily_allocated_witness :
  (∀ n : nat, (0 ≤ 2 ^ 52 + Z.of_nat n mod 2 ^ 52 < 2 ^ 53)%Z) ∧
  (∃ i self' rng',
     id_getter (λ n, (2 ^ 52 + Z.of_nat n mod 2 ^ 52)%Z) (Instance None None) 0
       = (i, self', rng') ∧
     _id self' = Some i ∧
     (_id (Instance None None) = None →
        i = int_10e10_times ((λ n, (2 ^ 52 + Z.of_nat n mod 2 ^ 52)%Z) 0%nat) ∧
        (0 ≤ i < 10 ^ 11)%Z ∧ rng' = 1%nat ∧
        (100000000000 * (λ n, (2 ^ 52 + Z.of_nat n mod 2 ^ 52)%Z) 0%nat / 2 ^ 53
           ≤ i
           ≤ 100000000000 * (λ n, (2 ^ 52 + Z.of_nat n mod 2 ^ 52)%Z) 0%nat
               / 2 ^ 53 + 1)%Z ∧
        (i * 2 ^ 53
           ≤ 100000000000 * (λ n, (2 ^ 52 + Z.of_nat n mod 2 ^ 52)%Z) 0%nat
               + 2 ^ 36)%Z ∧
        (i = (100000000000 * (λ n, (2 ^ 52 + Z.of_nat n mod 2 ^ 52)%Z) 0%nat
              + (if Z.log2 (100000000000
                            * (λ n, (2 ^ 52 + Z.of_nat n mod 2 ^ 52)%Z) 0%nat)
                      + 1 <=? 53
                 then 0
                 else 2 ^ (Z.log2 (100000000000
                                   * (λ n, (2 ^ 52 + Z.of_nat n mod 2 ^ 52)%Z)
                                       0%nat) - 53)))
             / 2 ^ 53)%Z) ∧
     (∀ j, _id (Instance None None) = Some j →
        i = j ∧ self' = Instance None None ∧ rng' = 0%nat) ∧
     id_getter (λ n, (2 ^ 52 + Z.of_nat n mod 2 ^ 52)%Z) self' rng'
       = (i, self', rng') ∧
     (∀ n, read_id_times (λ n, (2 ^ 52 + Z.of_nat n mod 2 ^ 52)%Z) n self' rng'
           = (repeat i n, self', rng'))) ∧
  id_getter (λ n, (2 ^ 52 + Z.of_nat n mod 2 ^ 52)%Z) (Instance None None) 0
  = (50000000000%Z, Instance (Some 50000000000%Z) None, 1%nat) ∧
  (100000000000 * 2 ^ 52 / 2 ^ 53 = 50000000000)%Z.
Proof.
  assert (H : ∀ n : nat, (0 ≤ 2 ^ 52 + Z.of_nat n mod 2 ^ 52 < 2 ^ 53)%Z).
  { intros n. pose proof (Z.mod_pos_bound (Z.of_nat n) (2 ^ 52)). lia. }
  split; [exact H|]. split.
  - exact (id_is_lazily_allocated (λ n, (2 ^ 52 + Z.of_nat n mod 2 ^ 52)%Z)
             (Instance None None) 0 H).
  - split; vm_compute; reflexivity.
Defined.

Example demo_read_id_three_times :
  read_id_times (λ n, (2 ^ 52 + Z.of_nat n)%Z) 3 (Instance None None) 0
  = ([50000000000; 50000000000; 50000000000]%Z,
     Instance (Some 50000000000%Z) None, 1%nat).
Proof. vm_compute. reflexivity. Qed.

(** * Further properties of the hooking code *)

(** ** [dir] and the list the registry returns *)

Lemma dir_NoDup (c : namespace) : NoDup (dir c).
Proof.
  unfold dir. rewrite merge_sort_Permutation. apply NoDup_elements.
Qed.

Lemma dir_sorted (c : namespace) : StronglySorted String.le (dir c).
Proof. unfold dir. apply StronglySorted_merge_sort; apply _. Qed.

Lemma StronglySorted_filter {A} (R : relation A) (P : A → Prop)
    `{∀ x, Decision (P x)} (l : list A) :
  StronglySorted R l → StronglySorted R (filter P l).
Proof.
  induction 1 as [|x l Hl IH Hx]; [constructor|].
  rewrite filter_cons. case_decide; [|done].
  constructor; [done|].
  apply Forall_forall. intros y [_ Hy]%list_elem_of_filter.
  revert y Hy. by apply Forall_forall.
Qed.

(** X1.  The list of operations to overload is duplicate-free and in the
    order of [dir], that is sorted by name, and each of its names resolves on
    the class to a method descriptor or to a function. *)
Theorem which_methods_sorted_nodup (exclude : list string)
    (object_ tensor_type : namespace) :
  ∃ to_overload,
    _which_methods_should_we_auto_overload exclude object_ tensor_type
      = Ok to_overload ∧
    NoDup to_overload ∧
    StronglySorted String.le to_overload ∧
    to_overload `sublist_of` dir tensor_type ∧
    Forall (λ attr, ∃ lit,
              ns_attrs tensor_type !! attr = Some lit ∧
              (m_type lit = method_descriptor ∨ m_type lit = FunctionType))
           to_overload.
Proof.
  eexists. split; [apply which_methods_computes|].
  split; [apply NoDup_filter, dir_NoDup|].
  split; [apply StronglySorted_filter, dir_sorted|].
  split; [apply sublist_filter|].
  apply Forall_forall. intros attr [Hsel _]%list_elem_of_filter.
  unfold auto_overloaded in Hsel. apply andb_true_iff in Hsel as [_ Hsel].
  destruct (ns_attrs tensor_type !! attr) as [lit|]; [|done].
  exists lit. split; [done|].
  apply andb_true_iff in Hsel as [Hsel _]. apply andb_true_iff in Hsel as [Hsel _].
  apply orb_true_iff in Hsel as [H|H].
  - left. by apply bool_decide_eq_true in H.
  - right. apply andb_true_iff in H as [H _]. by apply bool_decide_eq_true in H.
Qed.

(** X2.  [re.match] with the pattern [native*] succeeds on every name that
    begins with [nativ], so the registry never selects such a name, whether
    or not it is a saved original; nor does it select a name that
    [dir(object)] lists. *)
Theorem which_methods_never_selects_nativ (exclude : list string)
    (object_ tensor_type : namespace) (attr : string) :
  String.prefix "nativ" attr = true ∨ attr ∈ dir object_ →
  ∃ to_overload,
    _which_methods_should_we_auto_overload exclude object_ tensor_type
      = Ok to_overload ∧
    attr ∉ to_overload.
Proof.
  intros H. eexists. split; [apply which_methods_computes|].
  intros [Hsel _]%list_elem_of_filter. unfold auto_overloaded in Hsel.
  apply andb_true_iff in Hsel as [_ Hsel].
  destruct (ns_attrs tensor_type !! attr) as [lit|]; [|done].
  apply andb_true_iff in Hsel as [Hsel Hre]. apply andb_true_iff in Hsel as [_ Hb].
  rewrite re_match_native_star in Hre.
  apply negb_true_iff in Hre. apply negb_true_iff, bool_decide_eq_false in Hb.
  destruct H as [H|H]; [congruence|done].
Qed.

Lemma which_methods_never_selects_nativ_witness :
  (String.prefix "nativ" "nativity" = true ∨ "nativity" ∈ dir demo_object) ∧
  ∃ to_overload,
    _which_methods_should_we_auto_overload demo_exclude demo_object demo_Tensor
      = Ok to_overload ∧
    "nativity" ∉ to_overload.
Proof.
  split; [left; reflexivity|].
  apply (which_methods_never_selects_nativ demo_exclude demo_object demo_Tensor
           "nativity").
  left. reflexivity.
Defined.

(** ** [_add_methods_from__torch_tensor] *)

Lemma add_methods_unfold (TorchTensor tensor_type syft_type : namespace) :
  _add_methods_from__torch_tensor TorchTensor tensor_type syft_type
  = for_in (dir syft_type) (_add_methods_from__torch_tensor_step TorchTensor)
      tensor_type.
Proof. reflexivity. Qed.

Lemma add_step_cases (TorchTensor : namespace) (x : string) (T T' : namespace) :
  _add_methods_from__torch_tensor_step TorchTensor x T = Ok T' →
  (x ∈ _add_methods_from__torch_tensor_exclude ∧ T' = T) ∨
  ((x ∉ _add_methods_from__torch_tensor_exclude) ∧
   ∃ mt, ns_attrs TorchTensor !! x = Some mt ∧
     match ns_attrs T !! x with
     | Some mx => T' = setattr (setattr T ("native_" +:+ x) mx) x mt
     | None => T' = setattr T x mt
     end).
Proof.
  unfold _add_methods_from__torch_tensor_step.
  destruct (bool_decide (x ∈ _add_methods_from__torch_tensor_exclude)) eqn:Hex;
    simpl.
  - apply bool_decide_eq_true in Hex. intros [= <-]. by left.
  - apply bool_decide_eq_false in Hex. unfold hasattr, getattr.
    destruct (ns_attrs T !! x) as [mx|] eqn:Hmx; simpl;
      (destruct (ns_attrs TorchTensor !! x) as [mt|] eqn:Hmt; simpl; [|done]);
      intros [= <-]; right; (split; [done|]); exists mt; by rewrite ?Hmx.
Qed.

Lemma add_step_frame (TorchTensor : namespace) (x a : string)
    (T T' : namespace) :
  _add_methods_from__torch_tensor_step TorchTensor x T = Ok T' →
  a ≠ x → a ≠ "native_" +:+ x →
  ns_attrs T' !! a = ns_attrs T !! a.
Proof.
  intros [[_ ->]|(_ & mt & _ & H)]%add_step_cases H1 H2; [done|].
  destruct (ns_attrs T !! x); subst T'; simpl; by rewrite !lookup_insert_ne.
Qed.

Lemma add_loop_frame (TorchTensor : namespace) (l : list string) (a : string)
    (T T' : namespace) :
  (∀ x, x ∈ l → String.prefix "native_" x = false) →
  String.prefix "native_" a = false → a ∉ l →
  for_in l (_add_methods_from__torch_tensor_step TorchTensor) T = Ok T' →
  ns_attrs T' !! a = ns_attrs T !! a ∧
  ns_attrs T' !! ("native_" +:+ a) = ns_attrs T !! ("native_" +:+ a).
Proof.
  intros Hl Ha. revert T. induction l as [|x l IH]; intros T Hnotin.
  - by intros [= <-].
  - simpl.
    destruct (_add_methods_from__torch_tensor_step TorchTensor x T)
      as [T1|] eqn:HT1; simpl; [|done].
    intros H.
    assert (Hxl : ∀ y, y ∈ l → String.prefix "native_" y = false)
      by (intros y Hy; by apply Hl, list_elem_of_further).
    assert (Hxp : String.prefix "native_" x = false)
      by apply Hl, list_elem_of_here.
    apply not_elem_of_cons in Hnotin as [Hax Hal].
    destruct (IH Hxl T1 Hal H) as [-> ->].
    split.
    + apply (add_step_frame TorchTensor x a T T1 HT1); [done|].
      intros ->. by rewrite prefix_native_name in Ha.
    + apply (add_step_frame TorchTensor x _ T T1 HT1).
      * intros <-. by rewrite prefix_native_name in Hxp.
      * by intros ?%native_name_inj.
Qed.

(** A name of [TorchTensor] that is not in the local exclusion list ends
    up bound to [TorchTensor]'s method, and what the class had under that
    name is moved to the [native_] name. *)
Lemma add_loop_entry (TorchTensor : namespace) (l : list string) (a : string)
    (T T' : namespace) (mt : member) :
  NoDup l →
  (∀ x, x ∈ l → String.prefix "native_" x = false) →
  a ∈ l → a ∉ _add_methods_from__torch_tensor_exclude →
  ns_attrs TorchTensor !! a = Some mt →
  for_in l (_add_methods_from__torch_tensor_step TorchTensor) T = Ok T' →
  ns_attrs T' !! a = Some mt ∧
  (∀ m, ns_attrs T !! a = Some m →
     ns_attrs T' !! ("native_" +:+ a) = Some m).
Proof.
  intros Hnd Hl. revert T.
  induction Hnd as [|x l Hx Hnd IH]; intros T Ha Hex Hmt;
    [by apply elem_of_nil in Ha|].
  assert (Hxl : ∀ y, y ∈ l → String.prefix "native_" y = false)
    by (intros y Hy; by apply Hl, list_elem_of_further).
  assert (Hap : String.prefix "native_" a = false) by by apply Hl.
  simpl.
  destruct (_add_methods_from__torch_tensor_step TorchTensor x T)
    as [T1|] eqn:HT1; simpl; [|done].
  intros H. destruct (decide (a = x)) as [->|Hax].
  - destruct (add_loop_frame TorchTensor l x T1 T' Hxl Hap Hx H) as [-> ->].
    apply add_step_cases in HT1 as [[? _]|(_ & mt' & Hmt' & HT1)]; [done|].
    rewrite Hmt in Hmt'. injection Hmt' as <-.
    destruct (ns_attrs T !! x) as [mx|] eqn:Hmx; subst T1; simpl.
    + rewrite lookup_insert_eq. split; [done|]. intros m [= <-].
      rewrite lookup_insert_ne by (intros ?; by eapply native_name_neq).
      by rewrite lookup_insert_eq.
    + rewrite lookup_insert_eq. split; [done|]. by intros m.
  - apply elem_of_cons in Ha as [?|Ha]; [done|].
    destruct (IH Hxl T1 Ha Hex Hmt H) as [-> Hn]. split; [done|].
    intros m Hm. apply Hn. rewrite <- Hm.
    apply (add_step_frame TorchTensor x a T T1 HT1); [done|].
    intros ->. by rewrite prefix_native_name in Hap.
Qed.

(** ** What the native pass does to one operation *)

(** X3.  Hooking is transparent for a tensor without [child].  For an
    operation of the list whose [native_] name is free, the pass installs
    the dispatcher, keeps the previous member under the [native_] name, and
    a call on a bare native tensor after the pass does what a call with the
    same positional arguments and no keyword argument did before it. *)
Theorem native_pass_is_transparent (w : world)
    (send_command : worker → worker → value → outcome value)
    (native : string → value → list value → kwargs_t → outcome value)
    (handle_func_command : value → outcome value)
    (initialize_tensor :
       value → value → bool → list value → kwargs_t → outcome value)
    (l : list string) (T' : namespace) (a op : string) (m : member)
    (depth : nat) (data : Z) (args : list value) (kwargs : kwargs_t) :
  (∀ x, x ∈ l → String.prefix "native_" x = false) →
  a ∈ l →
  ("native_" +:+ a) ∉ dir (torch_Tensor w) →
  ns_attrs (torch_Tensor w) !! a = Some m →
  m_code m = Native op →
  _hook_native_methods l (torch_Tensor w) = Ok T' →
  ns_attrs T' !! a = Some (get_hooked_method a) ∧
  ns_attrs T' !! ("native_" +:+ a) = Some m ∧
  call_method (set_torch_Tensor T' w) send_command native handle_func_command
    initialize_tensor (S (S depth)) (VNative data) a args kwargs
  = call_method w send_command native handle_func_command initialize_tensor
      (S depth) (VNative data) a args [].
Proof.
  intros Hl Ha Hfree Hm Hop Hpass.
  destruct (hook_native_methods_saved l (torch_Tensor w) T' a Hl Ha Hfree Hpass)
    as (Hhooked & _ & Hsaved).
  rewrite Hm in Hsaved. split; [done|]. split; [done|].
  rewrite (hooked_method_on_native (set_torch_Tensor T' w) send_command native
             handle_func_command initialize_tensor depth data a op args kwargs m)
    by done.
  by rewrite (call_native w send_command native handle_func_command
                initialize_tensor depth (VNative data) a op args []
                (torch_Tensor w) m).
Qed.

Lemma native_pass_is_transparent_witness :
  ∃ T',
    _hook_native_methods ["add"; "norm"] demo_Tensor = Ok T' ∧
    ns_attrs T' !! "add" = Some (get_hooked_method "add") ∧
    ns_attrs T' !! "native_add" = Some (demo_descriptor "add") ∧
    call_method (set_torch_Tensor T' demo_world) demo_send_command demo_native
      demo_handle_func_command demo_initialize_tensor 3 (VNative 2) "add"
      [VInt 3] [("alpha", VInt 2)]
    = call_method demo_world demo_send_command demo_native
        demo_handle_func_command demo_initialize_tensor 2 (VNative 2) "add"
        [VInt 3] [].
Proof.
  destruct (hook_native_methods_succeeds ["add"; "norm"] demo_Tensor)
    as [T' HT'].
  { intros a Ha.
    apply elem_of_cons in Ha as [->|Ha]; [vm_compute; eauto|].
    apply elem_of_cons in Ha as [->|Ha]; [vm_compute; eauto|].
    by apply elem_of_nil in Ha. }
  exists T'. split; [exact HT'|].
  apply (native_pass_is_transparent demo_world demo_send_command demo_native
           demo_handle_func_command demo_initialize_tensor ["add"; "norm"] T'
           "add" "add" (demo_descriptor "add") 1 2 [VInt 3] [("alpha", VInt 2)]).
  - intros x Hx.
    apply elem_of_cons in Hx as [->|Hx]; [reflexivity|].
    apply elem_of_cons in Hx as [->|Hx]; [reflexivity|].
    destruct (not_elem_of_nil x Hx).
  - by_compute.
  - by_compute.
  - by vm_compute.
  - reflexivity.
  - exact HT'.
Defined.

(** X4.  An operation that [TorchTensor] defines is not auto-overloaded.
    [_add_methods_from__torch_tensor] binds the name to [TorchTensor]'s
    method and moves the class's own member to the [native_] name;
    [_hook_native_methods] then finds that name taken and leaves both. *)
Theorem torch_tensor_methods_are_not_overloaded
    (TorchTensor T T3 T4 : namespace) (l : list string) (a : string)
    (mt m : member) :
  (∀ x, x ∈ dir TorchTensor → String.prefix "native_" x = false) →
  (∀ x, x ∈ l → String.prefix "native_" x = false) →
  a ∉ _add_methods_from__torch_tensor_exclude →
  ns_attrs TorchTensor !! a = Some mt →
  ns_attrs T !! a = Some m →
  _add_methods_from__torch_tensor TorchTensor T TorchTensor = Ok T3 →
  _hook_native_methods l T3 = Ok T4 →
  ns_attrs T4 !! a = Some mt ∧ ns_attrs T4 !! ("native_" +:+ a) = Some m.
Proof.
  intros HTT Hl Hex Hmt Hm H3 H4.
  assert (Ha : a ∈ dir TorchTensor)
    by (apply elem_of_dir; left; rewrite Hmt; eauto).
  rewrite add_methods_unfold in H3.
  destruct (add_loop_entry TorchTensor (dir TorchTensor) a T T3 mt
              (dir_NoDup _) HTT Ha Hex Hmt H3) as [H3a H3n].
  specialize (H3n m Hm).
  destruct (hook_native_methods_kept l T3 T4 a Hl (HTT a Ha)) as [-> ->];
    [|done|done].
  apply elem_of_dir. left. rewrite H3n. eauto.
Qed.

Lemma torch_tensor_methods_are_not_overloaded_witness :
  ns_attrs (torch_Tensor demo_hooked_world) !! "sum"
    = Some (demo_function "TorchTensor.sum" "sum") ∧
  ns_attrs (torch_Tensor demo_hooked_world) !! "native_sum"
    = Some (demo_descriptor "sum").
Proof.
  destruct (init_first demo_exclude demo_object 1 (Some demo_alice) true true
              demo_world demo_hooked_world demo_hook)
    as (T1 & l & T3 & T4 & P' & L' & F' & HT1 & Hl & HT3 & HT4 & _ & _ & _
        & _ & Hw); [reflexivity|by vm_compute|].
  assert (HT4' : torch_Tensor demo_hooked_world = T4) by (by rewrite Hw).
  rewrite HT4'.
  apply (torch_tensor_methods_are_not_overloaded demo_TorchTensor
           (_hook_properties T1) T3 T4 l "sum").
  - intros x Hx. revert x Hx. apply Forall_forall. by_compute.
  - by apply (which_methods_no_native demo_exclude demo_object
                (_hook_properties T1)).
  - by_compute.
  - by vm_compute.
  - assert (T1 = setattr (setattr demo_Tensor "native___init__"
                            (demo_descriptor "__init__"))
                    "__init__" (new___init__ true)) as ->.
    { vm_compute in HT1. injection HT1 as <-. by vm_compute. }
    by vm_compute.
  - exact HT3.
  - exact HT4.
Defined.

(** X5.  [_add_methods_from__torch_tensor] has no guard of its own: run a
    second time, it saves the method it installed the first time, so the
    [native_] name no longer holds the class's original member but
    [TorchTensor]'s. *)
Theorem add_methods_twice_loses_original (TorchTensor T T1 T2 : namespace)
    (a : string) (mt m : member) :
  (∀ x, x ∈ dir TorchTensor → String.prefix "native_" x = false) →
  a ∉ _add_methods_from__torch_tensor_exclude →
  ns_attrs TorchTensor !! a = Some mt →
  ns_attrs T !! a = Some m →
  _add_methods_from__torch_tensor TorchTensor T TorchTensor = Ok T1 →
  _add_methods_from__torch_tensor TorchTensor T1 TorchTensor = Ok T2 →
  ns_attrs T1 !! ("native_" +:+ a) = Some m ∧
  ns_attrs T2 !! ("native_" +:+ a) = Some mt ∧
  ns_attrs T2 !! a = Some mt.
Proof.
  intros HTT Hex Hmt Hm H1 H2.
  assert (Ha : a ∈ dir TorchTensor)
    by (apply elem_of_dir; left; rewrite Hmt; eauto).
  rewrite add_methods_unfold in H1, H2.
  destruct (add_loop_entry TorchTensor (dir TorchTensor) a T T1 mt
              (dir_NoDup _) HTT Ha Hex Hmt H1) as [H1a H1n].
  destruct (add_loop_entry TorchTensor (dir TorchTensor) a T1 T2 mt
              (dir_NoDup _) HTT Ha Hex Hmt H2) as [H2a H2n].
  auto.
Qed.

Lemma add_methods_twice_loses_original_witness :
  ∃ T1 T2,
    _add_methods_from__torch_tensor demo_TorchTensor demo_Tensor
      demo_TorchTensor = Ok T1 ∧
    _add_methods_from__torch_tensor demo_TorchTensor T1 demo_TorchTensor
      = Ok T2 ∧
    ns_attrs T1 !! "native_sum" = Some (demo_descriptor "sum") ∧
    ns_attrs T2 !! "native_sum" = Some (demo_function "TorchTensor.sum" "sum") ∧
    ns_attrs T2 !! "sum" = Some (demo_function "TorchTensor.sum" "sum").
Proof.
  destruct (add_methods_succeeds demo_TorchTensor demo_Tensor)
    as (T1 & HT1 & _); [reflexivity|].
  destruct (add_methods_succeeds demo_TorchTensor T1) as (T2 & HT2 & _);
    [reflexivity|].
  exists T1, T2. split; [exact HT1|]. split; [exact HT2|].
  apply (add_methods_twice_loses_original demo_TorchTensor demo_Tensor T1 T2
           "sum").
  - intros x Hx. revert x Hx. apply Forall_forall. by_compute.
  - by_compute.
  - by vm_compute.
  - by vm_compute.
  - exact HT1.
  - exact HT2.
Defined.

(** ** [_hook_torch_module], name by name *)

Lemma str_in_unfold (needle hay : string) :
  str_in needle hay
  = String.prefix needle hay ||
    match hay with
    | EmptyString => false
    | String _ hay' => str_in needle hay'
    end.
Proof. by destruct hay. Qed.

Lemma str_in_native_name (x : string) :
  str_in "native_" ("native_" +:+ x) = true.
Proof. rewrite str_in_unfold. by rewrite prefix_native_name. Qed.

Section TorchModule.
Variable exclude : list string.

Local Abbreviation step := (_hook_torch_module_step exclude).

Lemma torch_step_cases (x : string) (M M' : namespace) :
  step x M = Ok M' →
  (M' = M ∧ ∀ m, ¬ hookable exclude x M m) ∨
  (∃ m, hookable exclude x M m ∧
        M' = setattr (setattr M ("native_" +:+ x) m) x (get_hooked_func m)).
Proof.
  unfold _hook_torch_module_step, hookable.
  destruct (bool_decide (x ∈ exclude)) eqn:Hex.
  { apply bool_decide_eq_true in Hex. intros [= <-]. left.
    split; [done|]. by intros m (? & _). }
  apply bool_decide_eq_false in Hex.
  destruct (str_in "native_" x) eqn:Hn; simpl.
  { intros [= <-]. left. split; [done|]. by intros m (_ & ? & _). }
  destruct (bool_decide ("native_" +:+ x ∈ dir M)) eqn:Hd.
  { apply bool_decide_eq_true in Hd. intros [= <-]. left.
    split; [done|]. by intros m (_ & _ & ? & _). }
  apply bool_decide_eq_false in Hd. unfold getattr.
  destruct (ns_attrs M !! x) as [mx|] eqn:Hmx; simpl; [|done].
  destruct (bool_decide (m_type mx ∈ [FunctionType; BuiltinFunctionType]))
    eqn:Hty.
  - apply bool_decide_eq_true in Hty. intros [= <-]. right.
    exists mx. done.
  - apply bool_decide_eq_false in Hty. intros [= <-]. left.
    split; [done|]. intros m (_ & _ & _ & [= <-] & ?). done.
Qed.

Lemma torch_step_hooks (x : string) (M : namespace) (m : member) :
  hookable exclude x M m →
  step x M = Ok (setattr (setattr M ("native_" +:+ x) m) x (get_hooked_func m)).
Proof.
  intros (Hex & Hn & Hd & Hm & Hty). unfold _hook_torch_module_step.
  rewrite (bool_decide_eq_false_2 _ Hex), Hn, (bool_decide_eq_false_2 _ Hd).
  simpl. unfold getattr. rewrite Hm. simpl.
  by rewrite (bool_decide_eq_true_2 _ Hty).
Qed.

Lemma torch_step_skips (x : string) (M : namespace) :
  x ∈ exclude ∨ str_in "native_" x = true ∨ ("native_" +:+ x) ∈ dir M →
  step x M = Ok M.
Proof.
  intros H. unfold _hook_torch_module_step.
  destruct (bool_decide (x ∈ exclude)) eqn:Hex; [done|].
  apply bool_decide_eq_false in Hex.
  destruct H as [H|[H|H]]; [done|by rewrite H|].
  rewrite (bool_decide_eq_true_2 _ H). by rewrite orb_true_r.
Qed.

Lemma torch_step_raises (x : string) (M : namespace) (e : pyexn) :
  step x M = Raise e →
  e = AttributeError ∧ ns_attrs M !! x = None ∧
  (x ∉ exclude) ∧ str_in "native_" x = false ∧ (("native_" +:+ x) ∉ dir M).
Proof.
  unfold _hook_torch_module_step.
  destruct (bool_decide (x ∈ exclude)) eqn:Hex; [done|].
  apply bool_decide_eq_false in Hex.
  destruct (str_in "native_" x) eqn:Hn; simpl; [done|].
  destruct (bool_decide ("native_" +:+ x ∈ dir M)) eqn:Hd; [done|].
  apply bool_decide_eq_false in Hd. unfold getattr.
  destruct (ns_attrs M !! x) as [mx|] eqn:Hmx; simpl.
  - by destruct (bool_decide _).
  - by intros [= <-].
Qed.

(** The entries that an iteration on [y] can change are [y] and its
    [native_] name, and both changes need [y] to have no [native_] in it. *)
Lemma torch_step_frame (y x : string) (M M' : namespace) :
  step y M = Ok M' → x ≠ y → str_in "native_" x = false →
  ns_attrs M' !! x = ns_attrs M !! x ∧
  ns_attrs M' !! ("native_" +:+ x) = ns_attrs M !! ("native_" +:+ x) ∧
  (("native_" +:+ x) ∈ dir M' → ("native_" +:+ x) ∈ dir M).
Proof.
  intros [[-> _]|(m & (_ & Hyn & _) & ->)]%torch_step_cases Hxy Hxn; [done|].
  assert (x ≠ "native_" +:+ y)
    by (intros ->; by rewrite str_in_native_name in Hxn).
  assert ("native_" +:+ x ≠ y)
    by (intros <-; by rewrite str_in_native_name in Hyn).
  assert ("native_" +:+ x ≠ "native_" +:+ y) by (by intros ?%native_name_inj).
  simpl. rewrite !lookup_insert_ne by done. split; [done|]. split; [done|].
  rewrite !dir_setattr. by intros [?|[?|?]].
Qed.

Lemma torch_step_dir (y : string) (M M' : namespace) :
  step y M = Ok M' →
  (∀ n, n ∈ dir M → n ∈ dir M') ∧
  (∀ n, n ∈ dir M' → n ∈ dir M ∨ str_in "native_" n = true).
Proof.
  intros [[-> _]|(m & (_ & _ & _ & Hm & _) & ->)]%torch_step_cases; [auto|].
  split; intros n; rewrite !dir_setattr; [auto|].
  intros [->|[->|?]]; [left|right|by left].
  - apply elem_of_dir. left. rewrite Hm. eauto.
  - apply str_in_native_name.
Qed.

Lemma torch_loop_frame (l : list string) (x : string) (M M' : namespace) :
  for_in l step M = Ok M' → x ∉ l → str_in "native_" x = false →
  ns_attrs M' !! x = ns_attrs M !! x ∧
  ns_attrs M' !! ("native_" +:+ x) = ns_attrs M !! ("native_" +:+ x).
Proof.
  revert M. induction l as [|y l IH]; intros M; simpl.
  - by intros [= <-].
  - destruct (step y M) as [M1|] eqn:HM1; simpl; [|done].
    intros H [Hxy Hxl]%not_elem_of_cons Hxn.
    destruct (IH M1 H Hxl Hxn) as [-> ->].
    destruct (torch_step_frame y x M M1 HM1) as (? & ? & _); auto.
Qed.

Lemma torch_loop_hooks (l : list string) (x : string) (M M' : namespace)
    (m : member) :
  NoDup l → x ∈ l → hookable exclude x M m →
  for_in l step M = Ok M' →
  ns_attrs M' !! x = Some (get_hooked_func m) ∧
  ns_attrs M' !! ("native_" +:+ x) = Some m.
Proof.
  intros Hnd. revert M.
  induction Hnd as [|y l Hy Hnd IH]; intros M Hx Hh;
    [by apply elem_of_nil in Hx|].
  simpl. destruct (decide (x = y)) as [<-|Hxy].
  - rewrite (torch_step_hooks x M m Hh). simpl. intros H.
    destruct Hh as (_ & Hn & _).
    destruct (torch_loop_frame l x _ M' H Hy Hn) as [-> ->]. simpl.
    rewrite lookup_insert_eq.
    rewrite lookup_insert_ne by (intros ?; by eapply native_name_neq).
    by rewrite lookup_insert_eq.
  - apply elem_of_cons in Hx as [?|Hx]; [done|].
    destruct (step y M) as [M1|] eqn:HM1; simpl; [|done].
    apply IH; [done|].
    destruct Hh as (Hex & Hn & Hd & Hm & Hty).
    destruct (torch_step_frame y x M M1 HM1 Hxy Hn) as (Hx1 & _ & Hd1).
    split; [done|]. split; [done|]. split; [auto|]. by rewrite Hx1.
Qed.

Lemma torch_loop_keeps (l : list string) (n : string) (M M' : namespace) :
  n ∈ dir M → (∀ m, ¬ hookable exclude n M m) →
  for_in l step M = Ok M' →
  ns_attrs M' !! n = ns_attrs M !! n.
Proof.
  revert M. induction l as [|y l IH]; intros M Hn Hnot; simpl.
  - by intros [= <-].
  - destruct (step y M) as [M1|] eqn:HM1; simpl; [|done]. intros H.
    apply torch_step_cases in HM1 as [[-> _]|(m & Hh & ->)]; [by apply IH|].
    assert (n ≠ y) by (intros ->; by eapply Hnot).
    assert (n ≠ "native_" +:+ y).
    { intros ->. by destruct Hh as (_ & _ & ? & _). }
    assert (Hn' : n ∈ dir (setattr (setattr M ("native_" +:+ y) m) y
                             (get_hooked_func m)))
      by (rewrite !dir_setattr; auto).
    rewrite (IH _ Hn'); [| |exact H].
    + simpl. by rewrite !lookup_insert_ne.
    + intros m' (Hex & Hsn & Hd & Hm & Hty). apply (Hnot m').
      simpl in Hm. rewrite !lookup_insert_ne in Hm by done.
      split; [done|]. split; [done|]. split; [|done].
      intros Hd'. apply Hd. rewrite !dir_setattr. auto.
Qed.

Lemma torch_loop_settles (l : list string) (M M' : namespace) :
  for_in l step M = Ok M' →
  (∀ n, n ∈ dir M → n ∈ dir M') ∧
  (∀ n, n ∈ dir M' → n ∈ dir M ∨ str_in "native_" n = true) ∧
  (∀ x, step x M = Ok M → step x M' = Ok M') ∧
  (∀ x, x ∈ l → step x M' = Ok M').
Proof.
  revert M. induction l as [|y l IH]; intros M; simpl.
  - intros [= <-]. split; [done|]. split; [auto|]. split; [done|].
    by intros x ?%elem_of_nil.
  - destruct (step y M) as [M1|] eqn:HM1; simpl; [|done]. intros H.
    destruct (IH M1 H) as (Hd1 & Hd2 & Hkeep & Hall).
    destruct (torch_step_dir y M M1 HM1) as [Hs1 Hs2].
    assert (Hstable : ∀ x, step x M = Ok M → step x M1 = Ok M1).
    { intros x Hx.
      destruct (torch_step_cases y M M1 HM1) as [[-> _]|(my & Hhy & ->)];
        [done|].
      destruct (decide (x ∈ exclude)) as [?|Hex];
        [apply torch_step_skips; auto|].
      destruct (str_in "native_" x) eqn:Hn;
        [apply torch_step_skips; auto|].
      destruct (decide (("native_" +:+ x) ∈ dir M)) as [Hd|Hd].
      { apply torch_step_skips. right. right. rewrite !dir_setattr. auto. }
      destruct (decide (x = y)) as [->|Hxy].
      { apply torch_step_skips. right. right. rewrite !dir_setattr. auto. }
      assert (x ≠ "native_" +:+ y)
        by (intros ->; by rewrite str_in_native_name in Hn).
      pose proof Hx as Hx'. unfold _hook_torch_module_step in Hx'.
      rewrite (bool_decide_eq_false_2 _ Hex), Hn,
        (bool_decide_eq_false_2 _ Hd) in Hx'.
      simpl in Hx'. unfold getattr in Hx'.
      destruct (ns_attrs M !! x) as [mx|] eqn:Hmx; simpl in Hx'; [|done].
      destruct (bool_decide (m_type mx ∈ [FunctionType; BuiltinFunctionType]))
        eqn:Hty.
      - exfalso. injection Hx' as Heq. apply Hd. rewrite <- Heq.
        rewrite !dir_setattr. auto.
      - apply bool_decide_eq_false in Hty.
        set (M1 := setattr (setattr M ("native_" +:+ y) my) y
                     (get_hooked_func my)).
        destruct (decide (("native_" +:+ x) ∈ dir M1)) as [Hd1'|Hd1'];
          [apply torch_step_skips; auto|].
        unfold _hook_torch_module_step.
        rewrite (bool_decide_eq_false_2 _ Hex), Hn,
          (bool_decide_eq_false_2 _ Hd1').
        simpl. unfold getattr. simpl. rewrite !lookup_insert_ne by done.
        rewrite Hmx. simpl.
        by rewrite (bool_decide_eq_false_2 _ Hty). }
    split; [auto|]. split.
    { intros n Hn. destruct (Hd2 n Hn) as [?|?]; [|auto]. by apply Hs2. }
    split; [auto|].
    intros x [->|Hx]%elem_of_cons; [|auto].
    apply Hkeep.
    pose proof HM1 as Hc.
    apply torch_step_cases in Hc as [[-> _]|(my & Hhy & ->)]; [done|].
    apply torch_step_skips. right. right. rewrite !dir_setattr. auto.
Qed.
End TorchModule.

Lemma torch_loop_raises (exclude : list string) (l : list string) (x : string)
    (M : namespace) :
  x ∈ l → ns_attrs M !! x = None → (x ∉ exclude) →
  str_in "native_" x = false → (("native_" +:+ x) ∉ dir M) →
  for_in l (_hook_torch_module_step exclude) M = Raise AttributeError.
Proof.
  revert M. induction l as [|y l IH]; intros M Hx Hm Hex Hn Hd;
    [by apply elem_of_nil in Hx|].
  simpl. destruct (_hook_torch_module_step exclude y M) as [M1|e] eqn:HM1; simpl.
  - destruct (decide (x = y)) as [->|Hxy].
    + exfalso. revert HM1. unfold _hook_torch_module_step.
      rewrite (bool_decide_eq_false_2 _ Hex), Hn, (bool_decide_eq_false_2 _ Hd).
      simpl. unfold getattr. by rewrite Hm.
    + apply elem_of_cons in Hx as [?|Hx]; [done|].
      destruct (torch_step_frame exclude y x M M1 HM1 Hxy Hn) as (Hx1 & _ & Hd1).
      apply IH; auto. by rewrite Hx1.
  - by apply torch_step_raises in HM1 as [-> _].
Qed.

Lemma torch_loop_settled (exclude : list string) (l : list string)
    (M : namespace) :
  (∀ x, x ∈ l → _hook_torch_module_step exclude x M = Ok M) →
  for_in l (_hook_torch_module_step exclude) M = Ok M.
Proof.
  induction l as [|y l IH]; intros H; simpl; [done|].
  rewrite (H y) by apply list_elem_of_here. simpl.
  apply IH. intros x Hx. by apply H, list_elem_of_further.
Qed.

(** X6.  A module function that meets the conditions of the pass ends up
    hooked: its name holds the dispatcher built from it and the [native_]
    name holds the function itself.  A call by name then sends the command
    named after the original's [__module__] and [__name__], and a call by
    the [native_] name does what a call by name did before the pass. *)
Theorem torch_module_hooks_function
    (native : string → value → list value → kwargs_t → outcome value)
    (handle_func_command : value → outcome value)
    (exclude : list string) (F F' : namespace) (func op : string) (m : member)
    (args : list value) (kwargs : kwargs_t) :
  hookable exclude func F m →
  m_code m = Native op →
  _hook_torch_module exclude F = Ok F' →
  ns_attrs F' !! func = Some (get_hooked_func m) ∧
  ns_attrs F' !! ("native_" +:+ func) = Some m ∧
  call_function native handle_func_command F' func args kwargs
  = ([handle_func_command_call
        (VTuple [VStr (m_module m +:+ "." +:+ m_name m); VNone; VTuple args])],
     handle_func_command
       (VTuple [VStr (m_module m +:+ "." +:+ m_name m); VNone; VTuple args])) ∧
  call_function native handle_func_command F' ("native_" +:+ func) args kwargs
  = call_function native handle_func_command F func args kwargs.
Proof.
  intros Hh Hop Hpass.
  assert (Hin : func ∈ dir F).
  { apply elem_of_dir. left. destruct Hh as (_ & _ & _ & -> & _). eauto. }
  destruct (torch_loop_hooks exclude (dir F) func F F' m (dir_NoDup F) Hin Hh
              Hpass) as [Hf Hn].
  split; [done|]. split; [done|].
  destruct Hh as (_ & _ & _ & Hm & _).
  unfold call_function, getattr. rewrite Hf, Hn, Hm. simpl. rewrite Hop.
  split; [|done]. unfold hooked_func. by destruct (handle_func_command _).
Qed.

Lemma torch_module_hooks_function_witness :
  hookable demo_exclude "relu" demo_functional
    (Member FunctionType (Some "relu") "torch.nn.functional" "relu"
       (Native "relu")) ∧
  ns_attrs (torch_nn_functional demo_hooked_world) !! "native_relu"
    = Some (Member FunctionType (Some "relu") "torch.nn.functional" "relu"
              (Native "relu")) ∧
  call_function demo_native demo_handle_func_command
    (torch_nn_functional demo_hooked_world) "native_relu" [VNative 2] []
  = call_function demo_native demo_handle_func_command demo_functional "relu"
      [VNative 2] [].
Proof.
  assert (Hh : hookable demo_exclude "relu" demo_functional
                 (Member FunctionType (Some "relu") "torch.nn.functional" "relu"
                    (Native "relu"))).
  { split; [by_compute|]. split; [reflexivity|]. split; [by_compute|].
    split; [by vm_compute|by_compute]. }
  split; [exact Hh|].
  destruct (torch_module_hooks_function demo_native demo_handle_func_command
              demo_exclude demo_functional
              (torch_nn_functional demo_hooked_world) "relu" "relu" _
              [VNative 2] [] Hh) as (_ & H2 & _ & H4);
    [reflexivity|by vm_compute|].
  split; [exact H2|exact H4].
Defined.

(** X7.  [_hook_torch_module] changes nothing else: a name that [dir]
    listed on the module and that does not meet the conditions of the pass
    (it is excluded, or has [native_] in it, or its [native_] twin exists, or
    it is not a function) resolves after the pass as it did before. *)
Theorem torch_module_keeps_other_names (exclude : list string)
    (F F' : namespace) (n : string) :
  n ∈ dir F → (∀ m, ¬ hookable exclude n F m) →
  _hook_torch_module exclude F = Ok F' →
  ns_attrs F' !! n = ns_attrs F !! n.
Proof. intros Hn Hnot Hpass. by apply (torch_loop_keeps exclude (dir F)). Qed.

Lemma torch_module_keeps_other_names_witness :
  "Tensor" ∈ dir demo_functional ∧
  ns_attrs (torch_nn_functional demo_hooked_world) !! "Tensor"
  = ns_attrs demo_functional !! "Tensor".
Proof.
  assert (Hn : "Tensor" ∈ dir demo_functional) by by_compute.
  split; [exact Hn|].
  apply (torch_module_keeps_other_names demo_exclude demo_functional
           (torch_nn_functional demo_hooked_world) "Tensor" Hn).
  - intros m (_ & _ & _ & Hm & Hty). vm_compute in Hm. injection Hm as <-.
    revert Hty. by_compute.
  - by vm_compute.
Defined.

(** X8.  [_hook_torch_module] is idempotent: on the module it produced, a
    second pass finds every function either excluded, or carrying
    [native_], or next to its [native_] twin, and changes nothing. *)
Theorem torch_module_pass_is_idempotent (exclude : list string)
    (F F' : namespace) :
  _hook_torch_module exclude F = Ok F' →
  _hook_torch_module exclude F' = Ok F'.
Proof.
  intros Hpass. unfold _hook_torch_module in *.
  destruct (torch_loop_settles exclude (dir F) F F' Hpass)
    as (_ & Hd & _ & Hall).
  apply torch_loop_settled. intros x Hx.
  destruct (Hd x Hx) as [?|?]; [by apply Hall|].
  apply torch_step_skips. auto.
Qed.

Lemma torch_module_pass_is_idempotent_witness :
  _hook_torch_module demo_exclude demo_functional
    = Ok (torch_nn_functional demo_hooked_world) ∧
  _hook_torch_module demo_exclude (torch_nn_functional demo_hooked_world)
    = Ok (torch_nn_functional demo_hooked_world).
Proof.
  assert (H : _hook_torch_module demo_exclude demo_functional
              = Ok (torch_nn_functional demo_hooked_world))
    by (by vm_compute).
  split; [exact H|].
  exact (torch_module_pass_is_idempotent demo_exclude demo_functional
           (torch_nn_functional demo_hooked_world) H).
Defined.

(** X9.  Unlike the registry, [_hook_torch_module] reads a member without
    asking [hasattr] first: if [dir] lists a name that does not resolve,
    and the name is neither excluded nor skipped, the pass raises
    [AttributeError]. *)
Theorem torch_module_raises_on_unresolved (exclude : list string)
    (F : namespace) (func : string) :
  func ∈ dir F → ns_attrs F !! func = None → (func ∉ exclude) →
  str_in "native_" func = false → (("native_" +:+ func) ∉ dir F) →
  _hook_torch_module exclude F = Raise AttributeError.
Proof. intros. by apply (torch_loop_raises exclude (dir F) func). Qed.

Lemma torch_module_raises_on_unresolved_witness :
  _hook_torch_module demo_exclude
    (Namespace (ns_attrs demo_functional) {["__getattr__"]})
  = Raise AttributeError.
Proof.
  apply (torch_module_raises_on_unresolved demo_exclude
           (Namespace (ns_attrs demo_functional) {["__getattr__"]})
           "__getattr__").
  - by_compute.
  - by vm_compute.
  - by_compute.
  - reflexivity.
  - by_compute.
Defined.

(** ** Dispatch through more than one layer *)

Section DispatchLayers.
Variable w : world.
Variable send_command : worker → worker → value → outcome value.
Variable native : string → value → list value → kwargs_t → outcome value.
Variable handle_func_command : value → outcome value.
Variable initialize_tensor :
  value → value → bool → list value → kwargs_t → outcome value.

Local Abbreviation call :=
  (call_method w send_command native handle_func_command initialize_tensor).

Local Arguments call_method : simpl never.

(** X10.  An operation invoked on a [torch.Tensor] that wraps a pointer
    goes through two dispatchers: the hooked method unwraps the receiver and
    the arguments, the pointer method sends one command, whose receiver is
    the pointer and whose arguments are the unwrapped ones, and the response
    comes back rehydrated as a [torch.Tensor]; what [send_command] raises is
    raised unchanged.  The keyword arguments are not part of the command. *)
Theorem wrapped_pointer_dispatch (depth : nat) (owner location : worker)
    (id_at_location : Z) (attr : string) (args : list value)
    (kwargs : kwargs_t) :
  ns_attrs (torch_Tensor w) !! attr = Some (get_hooked_method attr) →
  ns_attrs (syft_PointerTensor w) !! attr
    = Some (get_hooked_pointer_method attr) →
  let pointer := VPointer owner location id_at_location in
  let command :=
    VTuple [VStr attr; pointer; VTuple (snd (hook_method_args attr
                                               (VWrapper pointer) args))] in
  call (S (S depth)) (VWrapper pointer) attr args kwargs
  = ([send_command_call owner location command],
     match send_command owner location command with
     | Ok response => Ok (hook_response attr response torch_Tensor_t)
     | Raise e => Raise e
     end).
Proof.
  intros Hm Hp pointer command.
  rewrite (call_method_unfold w send_command native handle_func_command
             initialize_tensor _ _ _ _ _ (torch_Tensor w)
             (get_hooked_method attr)) by done.
  unfold call_member, hooked_method; simpl.
  rewrite (call_method_unfold w send_command native handle_func_command
             initialize_tensor _ _ _ _ _ (syft_PointerTensor w)
             (get_hooked_pointer_method attr)) by done.
  unfold call_member, hooked_pointer_method; simpl.
  fold pointer. unfold command. simpl.
  by destruct (send_command owner location _).
Qed.

(** X11.  The dispatchers on a wrapper have no handler of their own: when
    the call on the child raises, whether from the numeric library, from a
    worker or because the frames ran out, the call on the wrapper raises
    the same exception after the same effects, and nothing is rehydrated. *)
Theorem wrapper_dispatch_propagates_errors (depth : nat) (self child : value)
    (attr : string) (args : list value) (kwargs : kwargs_t)
    (trace : list event) (e : pyexn) :
  wraps w self child attr →
  call depth child attr (snd (hook_method_args attr self args)) kwargs
    = (trace, Raise e) →
  call (S depth) self attr args kwargs = (trace, Raise e).
Proof.
  intros Hw Hc. rewrite (wrapper_dispatch w send_command native
                           handle_func_command initialize_tensor depth self
                           child) by done.
  simpl in Hc. by rewrite Hc.
Qed.
End DispatchLayers.

Lemma wrapped_pointer_dispatch_witness :
  ns_attrs (torch_Tensor demo_hooked_world) !! "add"
    = Some (get_hooked_method "add") ∧
  ns_attrs (syft_PointerTensor demo_hooked_world) !! "add"
    = Some (get_hooked_pointer_method "add") ∧
  demo_call_method 2 (VWrapper (VPointer demo_alice demo_bob 7)) "add"
    [VWrapper (VNative 3)] [("alpha", VInt 2)]
  = ([send_command_call demo_alice demo_bob
        (VTuple [VStr "add"; VPointer demo_alice demo_bob 7;
                 VTuple [VNative 3]])],
     Ok (VWrapper (VPointer demo_alice demo_bob 8))).
Proof.
  assert (H1 : ns_attrs (torch_Tensor demo_hooked_world) !! "add"
               = Some (get_hooked_method "add")) by (by vm_compute).
  assert (H2 : ns_attrs (syft_PointerTensor demo_hooked_world) !! "add"
               = Some (get_hooked_pointer_method "add")) by (by vm_compute).
  split; [exact H1|]. split; [exact H2|].
  exact (wrapped_pointer_dispatch demo_hooked_world demo_send_command
           demo_native demo_handle_func_command demo_initialize_tensor
           0 demo_alice demo_bob 7 "add" [VWrapper (VNative 3)]
           [("alpha", VInt 2)] H1 H2).
Defined.

Lemma wrapper_dispatch_propagates_errors_witness :
  wraps demo_hooked_world (VWrapper (VNative 2)) (VNative 2) "norm" ∧
  demo_call_method 4 (VNative 2) "norm" [VInt 3] []
  = ([native_call "norm" (VNative 2) [VInt 3] []], Raise TypeError) ∧
  demo_call_method 5 (VWrapper (VNative 2)) "norm" [VInt 3] []
  = ([native_call "norm" (VNative 2) [VInt 3] []], Raise TypeError).
Proof.
  assert (Hw : wraps demo_hooked_world (VWrapper (VNative 2)) (VNative 2) "norm")
    by (left; split; [reflexivity|by vm_compute]).
  assert (Hc : demo_call_method 4 (VNative 2) "norm" [VInt 3] []
               = ([native_call "norm" (VNative 2) [VInt 3] []], Raise TypeError))
    by (by vm_compute).
  split; [exact Hw|]. split; [exact Hc|].
  exact (wrapper_dispatch_propagates_errors demo_hooked_world demo_send_command
           demo_native demo_handle_func_command demo_initialize_tensor
           4 (VWrapper (VNative 2)) (VNative 2) "norm" [VInt 3] []
           _ TypeError Hw Hc).
Defined.

(** ** The pointer and syft passes, run to the end *)

Section AddIfAbsentResult.
Variable mk : string → member.

Lemma add_if_absent_result (l : list string) (c c' : namespace) :
  for_in l (λ attr c,
    if negb (bool_decide (attr ∈ dir c)) then Ok (setattr c attr (mk attr))
    else Ok c) c = Ok c' →
  (∀ a, a ∈ dir c → a ∈ dir c' ∧ ns_attrs c' !! a = ns_attrs c !! a) ∧
  (∀ a, a ∈ l → a ∈ dir c') ∧
  (∀ a, a ∈ l → a ∉ dir c → ns_attrs c' !! a = Some (mk a)).
Proof.
  revert c. induction l as [|x l IH]; intros c; simpl.
  - intros [= <-]. split; [auto|].
    split; intros a Ha; destruct (not_elem_of_nil a Ha).
  - destruct (bool_decide (x ∈ dir c)) eqn:Hx; simpl; intros H;
      destruct (IH _ H) as (Hk & Hin & Hnew).
    + apply bool_decide_eq_true in Hx. split; [exact Hk|]. split.
      * intros a [->|Ha]%elem_of_cons; [by apply Hk|by apply Hin].
      * intros a [->|Ha]%elem_of_cons Hnd; [done|by apply Hnew].
    + apply bool_decide_eq_false in Hx.
      assert (Hx1 : x ∈ dir (setattr c x (mk x)))
        by (apply dir_setattr; by left).
      split; [|split].
      * intros a Ha. assert (a ≠ x) by (by intros ->).
        destruct (Hk a) as [Hd ->]; [apply dir_setattr; by right|].
        split; [done|]. simpl. by rewrite lookup_insert_ne.
      * intros a [->|Ha]%elem_of_cons; [by apply Hk|by apply Hin].
      * intros a Ha Hnd. destruct (decide (a = x)) as [->|Hax].
        -- destruct (Hk x Hx1) as [_ ->]. simpl. by rewrite lookup_insert_eq.
        -- apply elem_of_cons in Ha as [?|Ha]; [done|].
           apply Hnew; [done|]. rewrite dir_setattr. by intros [?|?].
Qed.

Lemma add_if_absent_settled (l : list string) (c : namespace) :
  (∀ a, a ∈ l → a ∈ dir c) →
  for_in l (λ attr c,
    if negb (bool_decide (attr ∈ dir c)) then Ok (setattr c attr (mk attr))
    else Ok c) c = Ok c.
Proof.
  induction l as [|x l IH]; intros H; simpl; [done|].
  rewrite bool_decide_eq_true_2 by apply H, list_elem_of_here. simpl.
  apply IH. intros a Ha. by apply H, list_elem_of_further.
Qed.
End AddIfAbsentResult.

(** X12.  After [_hook_pointer_tensor_methods], an operation of the list
    that [PointerTensor] did not have is a remote operation: invoked on a
    pointer, it sends one command, named after the operation, to the
    pointer's location through the pointer's owner, and returns or raises
    what the worker does. *)
Theorem pointer_pass_makes_operations_remote (w : world)
    (send_command : worker → worker → value → outcome value)
    (native : string → value → list value → kwargs_t → outcome value)
    (handle_func_command : value → outcome value)
    (initialize_tensor :
       value → value → bool → list value → kwargs_t → outcome value)
    (to_auto_overload : list string) (PointerTensor' : namespace)
    (attr : string) (depth : nat) (owner location : worker)
    (id_at_location : Z) (args : list value) (kwargs : kwargs_t) :
  attr ∈ to_auto_overload →
  attr ∉ dir (syft_PointerTensor w) →
  _hook_pointer_tensor_methods to_auto_overload (syft_PointerTensor w)
    = Ok PointerTensor' →
  let self := VPointer owner location id_at_location in
  let command := VTuple [VStr attr; self; VTuple args] in
  call_method (set_syft_PointerTensor PointerTensor' w) send_command native
    handle_func_command initialize_tensor (S depth) self attr args kwargs
  = ([send_command_call owner location command],
     send_command owner location command).
Proof.
  intros Hin Hfree Hpass self command.
  destruct (add_if_absent_result get_hooked_pointer_method to_auto_overload
              (syft_PointerTensor w) PointerTensor' Hpass) as (_ & _ & Hnew).
  rewrite (call_method_unfold (set_syft_PointerTensor PointerTensor' w)
             send_command native handle_func_command initialize_tensor
             depth self attr args kwargs PointerTensor'
             (get_hooked_pointer_method attr)); [|done|by apply Hnew].
  unfold call_member, hooked_pointer_method; simpl.
  fold self. fold command.
  by destruct (send_command owner location command).
Qed.

Lemma pointer_pass_makes_operations_remote_witness :
  "sum" ∈ ["add"; "norm"; "sum"; "unnamed"] ∧
  ("sum" ∉ dir (syft_PointerTensor demo_world)) ∧
  call_method demo_hooked_world demo_send_command demo_native
    demo_handle_func_command demo_initialize_tensor 1
    (VPointer demo_alice demo_bob 7) "sum" [] []
  = ([send_command_call demo_alice demo_bob
        (VTuple [VStr "sum"; VPointer demo_alice demo_bob 7; VTuple []])],
     Ok (VPointer demo_alice demo_bob 8)).
Proof.
  assert (H1 : "sum" ∈ ["add"; "norm"; "sum"; "unnamed"]) by by_compute.
  assert (H2 : "sum" ∉ dir (syft_PointerTensor demo_world)) by by_compute.
  split; [exact H1|]. split; [exact H2|].
  assert (H3 : _hook_pointer_tensor_methods ["add"; "norm"; "sum"; "unnamed"]
                 (syft_PointerTensor demo_world)
               = Ok (syft_PointerTensor demo_hooked_world))
    by (by vm_compute).
  pose proof (pointer_pass_makes_operations_remote
                (set_syft_PointerTensor (syft_PointerTensor demo_world)
                   demo_hooked_world)
                demo_send_command demo_native demo_handle_func_command
                demo_initialize_tensor ["add"; "norm"; "sum"; "unnamed"]
                (syft_PointerTensor demo_hooked_world) "sum" 0
                demo_alice demo_bob 7 [] [] H1 H2 H3) as H.
  exact H.
Defined.

(** X13.  The pointer pass and the syft pass are complete and idempotent:
    when a pass is over, [dir] of the class lists every operation of the
    list, so a second run of the same pass finds nothing to add and returns
    the class as it is. *)
Theorem syft_passes_are_idempotent (to_auto_overload : list string)
    (PointerTensor PointerTensor' LoggingTensor LoggingTensor' : namespace) :
  _hook_pointer_tensor_methods to_auto_overload PointerTensor
    = Ok PointerTensor' →
  _hook_syft_tensor_methods to_auto_overload LoggingTensor
    = Ok LoggingTensor' →
  (∀ attr, attr ∈ to_auto_overload →
     attr ∈ dir PointerTensor' ∧ attr ∈ dir LoggingTensor') ∧
  _hook_pointer_tensor_methods to_auto_overload PointerTensor'
    = Ok PointerTensor' ∧
  _hook_syft_tensor_methods to_auto_overload LoggingTensor'
    = Ok LoggingTensor'.
Proof.
  intros HP HL.
  destruct (add_if_absent_result get_hooked_pointer_method to_auto_overload
              PointerTensor PointerTensor' HP) as (_ & HPin & _).
  destruct (add_if_absent_result get_hooked_syft_method to_auto_overload
              LoggingTensor LoggingTensor' HL) as (_ & HLin & _).
  split; [auto|]. split.
  - by apply (add_if_absent_settled get_hooked_pointer_method).
  - by apply (add_if_absent_settled get_hooked_syft_method).
Qed.

Lemma syft_passes_are_idempotent_witness :
  _hook_pointer_tensor_methods ["add"; "norm"; "sum"; "unnamed"]
    demo_PointerTensor = Ok (syft_PointerTensor demo_hooked_world) ∧
  _hook_syft_tensor_methods ["add"; "norm"; "sum"; "unnamed"]
    demo_LoggingTensor = Ok (syft_LoggingTensor demo_hooked_world) ∧
  _hook_pointer_tensor_methods ["add"; "norm"; "sum"; "unnamed"]
    (syft_PointerTensor demo_hooked_world)
    = Ok (syft_PointerTensor demo_hooked_world) ∧
  _hook_syft_tensor_methods ["add"; "norm"; "sum"; "unnamed"]
    (syft_LoggingTensor demo_hooked_world)
    = Ok (syft_LoggingTensor demo_hooked_world).
Proof.
  assert (HP : _hook_pointer_tensor_methods ["add"; "norm"; "sum"; "unnamed"]
                 demo_PointerTensor = Ok (syft_PointerTensor demo_hooked_world))
    by (by vm_compute).
  assert (HL : _hook_syft_tensor_methods ["add"; "norm"; "sum"; "unnamed"]
                 demo_LoggingTensor = Ok (syft_LoggingTensor demo_hooked_world))
    by (by vm_compute).
  split; [exact HP|]. split; [exact HL|].
  exact (proj2 (syft_passes_are_idempotent ["add"; "norm"; "sum"; "unnamed"]
                  demo_PointerTensor (syft_PointerTensor demo_hooked_world)
                  demo_LoggingTensor (syft_LoggingTensor demo_hooked_world)
                  HP HL)).
Defined.

(** ** The constructor of the tensor class *)

(** X14.  [_add_registration_to___init__] guards the constructor it saves:
    on a class with an [__init__] and no [native___init__] it succeeds, and
    a second run, which finds [native___init__] taken, replaces [__init__]
    again but leaves the saved constructor as the first run stored it. *)
Theorem add_registration_keeps_first_constructor (tensor_type : namespace)
    (torch_tensor1 torch_tensor2 : bool) (init : member) :
  "native___init__" ∉ dir tensor_type →
  ns_attrs tensor_type !! "__init__" = Some init →
  ∃ T1 T2,
    _add_registration_to___init__ tensor_type torch_tensor1 = Ok T1 ∧
    _add_registration_to___init__ T1 torch_tensor2 = Ok T2 ∧
    ns_attrs T1 !! "__init__" = Some (new___init__ torch_tensor1) ∧
    ns_attrs T1 !! "native___init__" = Some init ∧
    ns_attrs T2 !! "__init__" = Some (new___init__ torch_tensor2) ∧
    ns_attrs T2 !! "native___init__" = Some init.
Proof.
  intros Hfree Hinit.
  set (T1 := setattr (setattr tensor_type "native___init__" init) "__init__"
               (new___init__ torch_tensor1)).
  assert (H1 : _add_registration_to___init__ tensor_type torch_tensor1 = Ok T1).
  { unfold _add_registration_to___init__, getattr.
    rewrite (bool_decide_eq_false_2 _ Hfree). simpl. by rewrite Hinit. }
  assert (Hd : "native___init__" ∈ dir T1).
  { unfold T1. rewrite !dir_setattr. auto. }
  exists T1, (setattr T1 "__init__" (new___init__ torch_tensor2)).
  split; [done|]. split.
  { unfold _add_registration_to___init__.
    by rewrite (bool_decide_eq_true_2 _ Hd). }
  unfold T1; simpl.
  repeat split;
    repeat first [rewrite lookup_insert_eq|rewrite lookup_insert_ne by done];
    done.
Qed.

Lemma add_registration_keeps_first_constructor_witness :
  ∃ T1 T2,
    _add_registration_to___init__ demo_Tensor true = Ok T1 ∧
    _add_registration_to___init__ T1 false = Ok T2 ∧
    ns_attrs T1 !! "__init__" = Some (new___init__ true) ∧
    ns_attrs T1 !! "native___init__" = Some (demo_descriptor "__init__") ∧
    ns_attrs T2 !! "__init__" = Some (new___init__ false) ∧
    ns_attrs T2 !! "native___init__" = Some (demo_descriptor "__init__").
Proof.
  apply (add_registration_keeps_first_constructor demo_Tensor true false
           (demo_descriptor "__init__")).
  - by_compute.
  - by vm_compute.
Defined.

Lemma add_loop_frame_excluded (TorchTensor : namespace) (l : list string)
    (a : string) (T T' : namespace) :
  (∀ x, x ∈ l → String.prefix "native_" x = false) →
  String.prefix "native_" a = false →
  a ∈ _add_methods_from__torch_tensor_exclude →
  for_in l (_add_methods_from__torch_tensor_step TorchTensor) T = Ok T' →
  ns_attrs T' !! a = ns_attrs T !! a ∧
  ns_attrs T' !! ("native_" +:+ a) = ns_attrs T !! ("native_" +:+ a).
Proof.
  intros Hl Ha Hex. revert T. induction l as [|x l IH]; intros T.
  - by intros [= <-].
  - simpl.
    destruct (_add_methods_from__torch_tensor_step TorchTensor x T)
      as [T1|] eqn:HT1; simpl; [|done].
    intros H.
    assert (Hxl : ∀ y, y ∈ l → String.prefix "native_" y = false)
      by (intros y Hy; by apply Hl, list_elem_of_further).
    assert (Hxp : String.prefix "native_" x = false)
      by apply Hl, list_elem_of_here.
    destruct (IH Hxl T1 H) as [-> ->].
    pose proof HT1 as Hc.
    apply add_step_cases in Hc as [[_ ->]|(Hnex & _)]; [done|].
    assert (Hax : a ≠ x) by (by intros ->).
    split.
    + apply (add_step_frame TorchTensor x a T T1 HT1); [done|].
      intros ->. by rewrite prefix_native_name in Ha.
    + apply (add_step_frame TorchTensor x _ T T1 HT1).
      * intros <-. by rewrite prefix_native_name in Hxp.
      * by intros ?%native_name_inj.
Qed.

(** X15.  A first hook leaves the tensor class with the registering
    constructor: [__init__] is [new___init__] made with [torch_tensor=True],
    [native___init__] is the constructor the class had, and none of the
    later passes touches either.  Calling [__init__] on a tensor makes one
    call of [initialize_tensor], with the tensor as [cls], the keyword
    argument [id] or [None], [torch_tensor=True], the positional arguments
    as [init_args] and, as [init_kwargs], the keyword arguments other than
    [owner], [id] and [register]; it returns [None] whatever
    [initialize_tensor] returned, and raises what it raised. *)
Theorem first_hook_registers_constructor (exclude : list string)
    (object_ : namespace) (self : nat) (local_worker : option worker)
    (is_client verbose : bool) (w w' : world) (hook : TorchHook)
    (init : member) :
  torch_torch_hooked w = false →
  "native___init__" ∉ dir (torch_Tensor w) →
  ns_attrs (torch_Tensor w) !! "__init__" = Some init →
  (∀ x, x ∈ dir (syft_TorchTensor w) → String.prefix "native_" x = false) →
  __init__ exclude object_ self local_worker is_client verbose w
    = Ok (hook, w') →
  ns_attrs (torch_Tensor w') !! "__init__" = Some (new___init__ true) ∧
  ns_attrs (torch_Tensor w') !! "native___init__" = Some init ∧
  ∀ send_command native handle_func_command initialize_tensor depth data
      args kwargs,
    call_method w' send_command native handle_func_command initialize_tensor
      (S depth) (VNative data) "__init__" args kwargs
    = ([initialize_tensor_call (VNative data)
          (keyword_parameter "id" VNone kwargs) true args
          (remaining_kwargs ["owner"; "id"; "register"] kwargs)],
       match
         initialize_tensor (VNative data)
           (keyword_parameter "id" VNone kwargs) true args
           (remaining_kwargs ["owner"; "id"; "register"] kwargs)
       with
       | Ok _ => Ok VNone
       | Raise e => Raise e
       end).
Proof.
  intros Hh Hfree Hinit HTT Hrun.
  destruct (init_first exclude object_ self local_worker is_client verbose
              w w' hook Hh Hrun)
    as (T1 & l & T3 & T4 & P' & L' & F' & HT1 & Hl & HT3 & HT4 & _ & _ & _
        & _ & ->).
  cbn [torch_Tensor].
  assert (T1 = setattr (setattr (torch_Tensor w) "native___init__" init)
                 "__init__" (new___init__ true)) as ->.
  { revert HT1. unfold _add_registration_to___init__, getattr.
    rewrite (bool_decide_eq_false_2 _ Hfree). simpl. rewrite Hinit. simpl.
    by intros [= <-]. }
  set (T2 := _hook_properties
               (setattr (setattr (torch_Tensor w) "native___init__" init)
                  "__init__" (new___init__ true))) in *.
  assert (H2a : ns_attrs T2 !! "__init__" = Some (new___init__ true)).
  { unfold T2, _hook_properties; simpl.
    repeat first [rewrite lookup_insert_eq|rewrite lookup_insert_ne by done].
    done. }
  assert (H2n : ns_attrs T2 !! "native___init__" = Some init).
  { unfold T2, _hook_properties; simpl.
    repeat first [rewrite lookup_insert_eq|rewrite lookup_insert_ne by done].
    done. }
  rewrite add_methods_unfold in HT3.
  destruct (add_loop_frame_excluded (syft_TorchTensor w)
              (dir (syft_TorchTensor w)) "__init__" T2 T3 HTT) as [H3a H3n];
    [reflexivity|by_compute|exact HT3|].
  change ("native_" +:+ "__init__") with "native___init__" in H3n.
  rewrite H2a in H3a. rewrite H2n in H3n.
  destruct (hook_native_methods_kept l T3 T4 "__init__") as [H4a H4n];
    [by apply (which_methods_no_native exclude object_ T2 l Hl)|reflexivity|
     |exact HT4|].
  { apply elem_of_dir. left.
    change ("native_" +:+ "__init__") with "native___init__".
    rewrite H3n. eauto. }
  change ("native_" +:+ "__init__") with "native___init__" in H4n.
  rewrite H3a in H4a. rewrite H3n in H4n.
  split; [done|]. split; [done|].
  intros send_command native handle_func_command initialize_tensor depth data
    args kwargs.
  rewrite (call_method_unfold _ send_command native handle_func_command
             initialize_tensor depth (VNative data) "__init__" args kwargs
             T4 (new___init__ true)) by done.
  unfold call_member, new___init___closure; simpl.
  by destruct (initialize_tensor _ _ _ _ _).
Qed.

Lemma first_hook_registers_constructor_witness :
  ns_attrs (torch_Tensor demo_hooked_world) !! "__init__"
    = Some (new___init__ true) ∧
  ns_attrs (torch_Tensor demo_hooked_world) !! "native___init__"
    = Some (demo_descriptor "__init__") ∧
  demo_initialize_tensor (VNative 2) (VInt 7) true [VInt 3]
    [("requires_grad", VInt 1)] = Ok (VInt 42) ∧
  demo_call_method 1 (VNative 2) "__init__" [VInt 3]
    [("id", VInt 7); ("requires_grad", VInt 1); ("register", VInt 0)]
  = ([initialize_tensor_call (VNative 2) (VInt 7) true [VInt 3]
        [("requires_grad", VInt 1)]],
     Ok VNone).
Proof.
  destruct (first_hook_registers_constructor demo_exclude demo_object 1
              (Some demo_alice) true true demo_world demo_hooked_world
              demo_hook (demo_descriptor "__init__"))
    as (H1 & H2 & H3).
  - reflexivity.
  - by_compute.
  - by vm_compute.
  - intros x Hx. revert x Hx. apply Forall_forall. by_compute.
  - exact demo_first_hook_ok.
  - split; [exact H1|]. split; [exact H2|]. split; [reflexivity|].
    exact (H3 demo_send_command demo_native demo_handle_func_command
             demo_initialize_tensor 0 2%Z [VInt 3]
             [("id", VInt 7); ("requires_grad", VInt 1); ("register", VInt 0)]).
Defined.

(** ** [TorchHook.__init__], whichever branch it takes *)

(** X16.  Every construction that returns leaves the same state behind,
    whether it hooked or found the marker: the marker is set, the hook has a
    local worker, [syft.local_worker] is that worker, and [TorchTensor] is as
    it was. *)
Theorem construction_publishes_local_worker (exclude : list string)
    (object_ : namespace) (self : nat) (local_worker : option worker)
    (is_client verbose : bool) (w w' : world) (hook : TorchHook) :
  __init__ exclude object_ self local_worker is_client verbose w
    = Ok (hook, w') →
  torch_torch_hooked w' = true ∧
  is_Some (self_local_worker hook) ∧
  syft_local_worker w' = self_local_worker hook ∧
  syft_TorchTensor w' = syft_TorchTensor w.
Proof.
  intros Hrun. destruct (torch_torch_hooked w) eqn:Hh.
  - destruct (syft_local_worker w) as [lw|] eqn:Hlw.
    + rewrite (init_already_hooked exclude object_ self local_worker is_client
                 verbose w lw Hh Hlw) in Hrun.
      injection Hrun as <- <-. simpl. eauto.
    + exfalso. revert Hrun.
      unfold __init__, mbind, M_bind, read, write, read_attr; simpl.
      rewrite Hh. simpl. by rewrite Hlw.
  - destruct (init_first exclude object_ self local_worker is_client verbose
                w w' hook Hh Hrun)
      as (T1 & l & T3 & T4 & P' & L' & F' & _ & _ & _ & _ & _ & _ & _
          & -> & ->).
    simpl. eauto.
Qed.

Lemma construction_publishes_local_worker_witness :
  torch_torch_hooked demo_hooked_world = true ∧
  is_Some (self_local_worker demo_hook) ∧
  syft_local_worker demo_hooked_world = self_local_worker demo_hook ∧
  syft_TorchTensor demo_hooked_world = syft_TorchTensor demo_world.
Proof.
  exact (construction_publishes_local_worker demo_exclude demo_object 1
           (Some demo_alice) true true demo_world demo_hooked_world demo_hook
           demo_first_hook_ok).
Defined.

(** X17.  What a first hook registers is covered on every class.  The
    list kept under the key of [torch.Tensor] holds no excluded name, and
    for each of its operations the tensor class has a [native_] entry and
    both [PointerTensor] and [LoggingTensor] list the operation. *)
Theorem first_hook_covers_registered_operations (exclude : list string)
    (object_ : namespace) (self : nat) (local_worker : option worker)
    (is_client verbose : bool) (w w' : world) (hook : TorchHook) :
  torch_torch_hooked w = false →
  __init__ exclude object_ self local_worker is_client verbose w
    = Ok (hook, w') →
  ∃ to_auto_overload,
    get_to_auto_overload hook "torch.Tensor" = Ok to_auto_overload ∧
    ∀ attr, attr ∈ to_auto_overload →
      (attr ∉ exclude) ∧
      ("native_" +:+ attr) ∈ dir (torch_Tensor w') ∧
      attr ∈ dir (syft_PointerTensor w') ∧
      attr ∈ dir (syft_LoggingTensor w').
Proof.
  intros Hh Hrun.
  destruct (init_first exclude object_ self local_worker is_client verbose
              w w' hook Hh Hrun)
    as (T1 & l & T3 & T4 & P' & L' & F' & _ & Hl & _ & HT4 & HP & HL & _
        & -> & ->).
  exists l. split.
  { unfold get_to_auto_overload. simpl. by rewrite lookup_insert_eq. }
  intros attr Hattr. cbn [torch_Tensor syft_PointerTensor syft_LoggingTensor].
  destruct (hook_native_methods_dir l T3 T4 HT4) as (_ & _ & Hnat).
  destruct (add_if_absent_result get_hooked_pointer_method l
              (syft_PointerTensor w) P' HP) as (_ & HPin & _).
  destruct (add_if_absent_result get_hooked_syft_method l
              (syft_LoggingTensor w) L' HL) as (_ & HLin & _).
  split; [|auto].
  rewrite which_methods_computes in Hl. injection Hl as <-.
  apply list_elem_of_filter in Hattr as [Hsel _].
  by apply (auto_overloaded_not_excluded exclude object_ (_hook_properties T1)).
Qed.

Lemma first_hook_covers_registered_operations_witness :
  ∃ to_auto_overload,
    get_to_auto_overload demo_hook "torch.Tensor" = Ok to_auto_overload ∧
    ∀ attr, attr ∈ to_auto_overload →
      (attr ∉ demo_exclude) ∧
      ("native_" +:+ attr) ∈ dir (torch_Tensor demo_hooked_world) ∧
      attr ∈ dir (syft_PointerTensor demo_hooked_world) ∧
      attr ∈ dir (syft_LoggingTensor demo_hooked_world).
Proof.
  exact (first_hook_covers_registered_operations demo_exclude demo_object 1
           (Some demo_alice) true true demo_world demo_hooked_world demo_hook
           eq_refl demo_first_hook_ok).
Defined.

(** X18.  [__init__] never reads [verbose], and reads [is_client] only to
    make the virtual worker of a first hook that was given none: when a
    local worker is passed, or the module is already hooked, the two flags
    have no effect on the hook or on the state. *)
Theorem construction_ignores_flags (exclude : list string)
    (object_ : namespace) (self : nat) (local_worker : option worker)
    (is_client verbose is_client' verbose' : bool) (w : world) :
  is_Some local_worker ∨ torch_torch_hooked w = true →
  __init__ exclude object_ self local_worker is_client verbose w
  = __init__ exclude object_ self local_worker is_client' verbose' w.
Proof.
  intros [[lw ->]|Hh]; [reflexivity|].
  unfold __init__, mbind, M_bind, read; simpl. by rewrite Hh.
Qed.

Lemma construction_ignores_flags_witness :
  (is_Some (Some demo_alice) ∨ torch_torch_hooked demo_world = true) ∧
  __init__ demo_exclude demo_object 1 (Some demo_alice) true true demo_world
  = __init__ demo_exclude demo_object 1 (Some demo_alice) false false
      demo_world.
Proof.
  assert (H : is_Some (Some demo_alice) ∨ torch_torch_hooked demo_world = true)
    by (left; eauto).
  split; [exact H|].
  exact (construction_ignores_flags demo_exclude demo_object 1
           (Some demo_alice) true true false false demo_world H).
Defined.

(** ** The setters of [id] and [is_wrapper] *)

(** X19.  An identifier that was assigned is the one every later read
    returns, whether or not one had been allocated before; reading it draws
    no random number, and the assignment does not change what [is_wrapper]
    reads. *)
Theorem id_setter_round_trip (random_random : nat → Z) (self : instance)
    (new_id : Z) (rng n : nat) :
  id_getter random_random (id_setter self new_id) rng
  = (new_id, id_setter self new_id, rng) ∧
  read_id_times random_random n (id_setter self new_id) rng
  = (repeat new_id n, id_setter self new_id, rng) ∧
  id_setter (id_setter self new_id) new_id = id_setter self new_id ∧
  fst (is_wrapper_getter (id_setter self new_id))
  = fst (is_wrapper_getter self).
Proof.
  split; [done|]. split; [by apply read_id_times_assigned|]. split; [done|].
  unfold is_wrapper_getter. simpl. by destruct (_is_wrapper self).
Qed.

(** X20.  [is_wrapper] reads [False] on an instance that never had it
    assigned and remembers that answer; after an assignment it reads the
    assigned value; neither the read nor the assignment touches [_id]. *)
Theorem is_wrapper_defaults_to_false (self : instance) (it_is_a_wrapper : bool) :
  ∃ b self',
    is_wrapper_getter self = (b, self') ∧
    (_is_wrapper self = None → b = false) ∧
    _is_wrapper self' = Some b ∧
    is_wrapper_getter self' = (b, self') ∧
    _id self' = _id self ∧
    is_wrapper_getter (is_wrapper_setter self it_is_a_wrapper)
    = (it_is_a_wrapper, is_wrapper_setter self it_is_a_wrapper) ∧
    _id (is_wrapper_setter self it_is_a_wrapper) = _id self.
Proof.
  unfold is_wrapper_getter. destruct (_is_wrapper self) as [b|] eqn:Hw.
  - exists b, self. rewrite Hw. by repeat split.
  - eexists _, _. split; [reflexivity|]. by repeat split.
Qed.
